(** * The libass subtitle overlay: region partitioning and rasterization

    A shallow embedding of [modules/codec/libass.c]: the rectangle helpers
    ([r_create] ... [r_overlap]), the greedy partitioner [BuildRegions], the
    blender [RegionDraw] and the change-detection prologue of
    [SubpictureUpdate], followed by the properties proved about them.  The
    decoder side is modelled as well: [DecodeBlock] with [Flush], the
    reference count of [DecSysHold] and [DecSysRelease], the script-info
    patch [OldEngineClunkyRollInfoPatch] and the font filter of [Create];
    and, from [test/vlc-demux-libfuzzer.c], the target name chosen by
    [LLVMFuzzerInitialize].

    Conventions.
    - A C [int] is a [Z]; every arithmetic operation on it goes through
      [to_int], the two's-complement wrap to 32 bits.  Signed overflow is
      undefined in C, so theorems whose truth depends on an arithmetic value
      carry a range hypothesis under which no operation wraps.
    - [unsigned] arithmetic wraps through [to_unsigned], a [uint8_t] store
      through [to_uint8].
    - Loop counters, array indices and the cap [i_max_region] (4 in the one
      caller) are far from the limits of an [int] and are kept exact.
    - A linked list of [ASS_Image] is a [list]; [NULL] is [[]].
    - An array is a [list] read with [!!] and updated with [<[_:=_]>]; an
      access outside the array is undefined in C and is either reported as
      [Abort] (partitioner) or reads 0 / writes nothing (pixel buffers). *)

From stdpp Require Import base numbers list strings.

Local Open Scope Z_scope.

(** ** Machine arithmetic *)

Definition INT_MAX : Z := 2147483647.
Definition INT_MIN : Z := -2147483648.

Definition to_int (z : Z) : Z := (z + 2147483648) `mod` 4294967296 - 2147483648.
Definition to_unsigned (z : Z) : Z := z `mod` 4294967296.
Definition to_uint8 (z : Z) : Z := z `mod` 256.

Definition int_add (a b : Z) : Z := to_int (a + b).
Definition int_sub (a b : Z) : Z := to_int (a - b).
Definition int_mul (a b : Z) : Z := to_int (a * b).
(** C division truncates toward zero. *)
Definition int_div (a b : Z) : Z := to_int (a `quot` b).

Definition uint_add (a b : Z) : Z := to_unsigned (a + b).
Definition uint_sub (a b : Z) : Z := to_unsigned (a - b).
Definition uint_mul (a b : Z) : Z := to_unsigned (a * b).
Definition uint_div (a b : Z) : Z := a `div` b.

(** Modelled from the spec: the macros [__MIN] and [__MAX] come from a header
    that is not part of the sources at hand; the rectangle union and the
    tolerance [max(..., 32)] of the specification fix them as the usual
    ternary minimum and maximum. *)
Definition MIN (a b : Z) : Z := if a <? b then a else b.
Definition MAX (a b : Z) : Z := if b <? a then a else b.

(** ** Data model *)

Record rectangle_t := { x0 : Z; y0 : Z; x1 : Z; y1 : Z }.

(** One fragment of the external renderer; [next] is the tail of the list. *)
Record ASS_Image := {
  w : Z; h : Z; stride : Z;
  bitmap : list Z;
  color : Z;
  dst_x : Z; dst_y : Z
}.

(** ** Rectangle helpers *)

Definition r_create (ax0 ay0 ax1 ay1 : Z) : rectangle_t :=
  {| x0 := ax0; y0 := ay0; x1 := ax1; y1 := ay1 |}.

Definition r_img (p_img : ASS_Image) : rectangle_t :=
  r_create (dst_x p_img) (dst_y p_img)
           (int_add (dst_x p_img) (w p_img)) (int_add (dst_y p_img) (h p_img)).

(** [r_add r n] is the value of [*r] after the call. *)
Definition r_add (r n : rectangle_t) : rectangle_t :=
  {| x0 := MIN (x0 r) (x0 n); y0 := MIN (y0 r) (y0 n);
     x1 := MAX (x1 r) (x1 n); y1 := MAX (y1 r) (y1 n) |}.

Definition r_surface (r : rectangle_t) : Z :=
  int_mul (int_sub (x1 r) (x0 r)) (int_sub (y1 r) (y0 r)).

Definition r_overlap (a b : rectangle_t) (i_dx i_dy : Z) : bool :=
  (MAX (int_sub (x0 a) i_dx) (x0 b) <? MIN (int_add (x1 a) i_dx) (x1 b)) &&
  (MAX (int_sub (y0 a) i_dy) (y0 b) <? MIN (int_add (y1 a) i_dy) (y1 b)).

(** ** BuildRegions *)

(** The two tolerances computed at the top of [BuildRegions]. *)
Definition i_w_inc (i_width : Z) : Z := MAX (int_div (int_add i_width 49) 50) 32.
Definition i_h_inc (i_height : Z) : Z := MAX (int_div (int_add i_height 99) 100) 32.

(** [int i_maxh = i_w_inc; int i_maxw = i_h_inc;] *)
Definition i_maxh (i_width : Z) : Z := i_w_inc i_width.
Definition i_maxw (i_height : Z) : Z := i_h_inc i_height.

(** The loop over [k] that chooses [i_best]; the accumulator is
    [(i_best, i_best_s)]. *)
Definition find_best_step (regs : list rectangle_t) (r : rectangle_t)
    (maxw maxh : Z) (acc : Z * Z) (k : nat) : Z * Z :=
  match regs !! k with
  | Some rk =>
      if r_overlap rk r maxw maxh then
        let s := r_surface r in
        if s <? acc.2 then (Z.of_nat k, s) else acc
      else acc
  | None => acc
  end.

Definition find_best (regs : list rectangle_t) (r : rectangle_t) (maxw maxh : Z) : Z :=
  (foldl (find_best_step regs r maxw maxh) (-1, INT_MAX) (seq 0 (length regs))).1.

Record build_state := {
  pp_img : list (option ASS_Image);
  region : list rectangle_t;
  i_used : Z;
  b_ok : bool
}.

(** One iteration of the loop over [n] inside the do-while. *)
Definition scan_step (maxw maxh : Z) (st : build_state) (n : nat) : build_state :=
  match pp_img st !! n with
  | Some (Some p_img) =>
      let r := r_img p_img in
      let i_best := find_best (region st) r maxw maxh in
      if 0 <=? i_best then
        {| pp_img := <[n := None]> (pp_img st);
           region := alter (λ rg, r_add rg r) (Z.to_nat i_best) (region st);
           i_used := i_used st + 1;
           b_ok := true |}
      else st
  | _ => st
  end.

(** One pass of the do-while body: [b_ok = false] then the loop over [n]. *)
Definition scan (maxw maxh i_count : Z) (st : build_state) : build_state :=
  foldl (scan_step maxw maxh)
        {| pp_img := pp_img st; region := region st; i_used := i_used st; b_ok := false |}
        (seq 0 (Z.to_nat i_count)).

(** The do-while; [None] when the iteration budget is used up. *)
Fixpoint grow (fuel : nat) (maxw maxh i_count : Z) (st : build_state) : option build_state :=
  match fuel with
  | O => None
  | S fuel' =>
      let st' := scan maxw maxh i_count st in
      if b_ok st' then grow fuel' maxw maxh i_count st' else Some st'
  end.

Record merge_choice := { i_best_i : Z; i_best_j : Z; i_best_ds : Z }.

(** The area increase [ds] of the pair of rectangles. *)
Definition merge_cost (ri rj : rectangle_t) : Z :=
  int_sub (int_sub (r_surface (r_add ri rj)) (r_surface ri)) (r_surface rj).

Definition merge_step (regs : list rectangle_t) (i : nat)
    (acc : merge_choice) (j : nat) : merge_choice :=
  match regs !! i, regs !! j with
  | Some ri, Some rj =>
      let ds := merge_cost ri rj in
      if ds <? i_best_ds acc
      then {| i_best_i := Z.of_nat i; i_best_j := Z.of_nat j; i_best_ds := ds |}
      else acc
  | _, _ => acc
  end.

(** The double loop over [i < j] below the comment "merge best". *)
Definition find_merge (regs : list rectangle_t) : merge_choice :=
  foldl (λ acc i, foldl (merge_step regs i) acc (seq (S i) (length regs - S i)))
        {| i_best_i := -1; i_best_j := -1; i_best_ds := INT_MAX |}
        (seq 0 (length regs)).

(** The body of [if( i_region > i_max_region )]: union the chosen pair into
    slot [i_best_i] and close the gap at [i_best_j] ([memmove]). *)
Definition merge_best (regs : list rectangle_t) : list rectangle_t :=
  let m := find_merge regs in
  if (0 <=? i_best_j m) && (0 <=? i_best_i m) then
    match regs !! Z.to_nat (i_best_j m) with
    | Some rj =>
        delete (Z.to_nat (i_best_j m))
               (alter (λ ri, r_add ri rj) (Z.to_nat (i_best_i m)) regs)
    | None => regs
    end
  else regs.

(** The first loop of the outer body: the lowest [n] with [pp_img[n] != NULL]. *)
Fixpoint first_unassigned (pp : list (option ASS_Image)) : option (nat * ASS_Image) :=
  match pp with
  | [] => None
  | Some p_img :: _ => Some (O, p_img)
  | None :: pp' =>
      match first_unassigned pp' with
      | Some (n, p_img) => Some (S n, p_img)
      | None => None
      end
  end.

Inductive outcome :=
| Done (regions : list rectangle_t)  (* returns [length regions], array filled *)
| Abort                              (* failed [assert] or out-of-bounds access *)
| OutOfFuel.

(** The loop [for( int i_used = 0; i_used < i_count; )]. *)
Fixpoint build_loop (fuel : nat) (i_max_region maxw maxh i_count : Z)
    (st : build_state) : outcome :=
  match fuel with
  | O => OutOfFuel
  | S fuel' =>
      if i_used st <? i_count then
        match first_unassigned (pp_img st) with
        | None => Abort
        | Some (n, p_img) =>
            if Z.of_nat (length (region st)) <? i_max_region + 1 then
              let st1 := {| pp_img := <[n := None]> (pp_img st);
                            region := region st ++ [r_img p_img];
                            i_used := i_used st + 1;
                            b_ok := b_ok st |} in
              match grow (S (length (pp_img st1))) maxw maxh i_count st1 with
              | None => OutOfFuel
              | Some st2 =>
                  let st3 :=
                    if i_max_region <? Z.of_nat (length (region st2)) then
                      {| pp_img := pp_img st2; region := merge_best (region st2);
                         i_used := i_used st2; b_ok := b_ok st2 |}
                    else st2 in
                  build_loop fuel' i_max_region maxw maxh i_count st3
              end
            else Abort
        end
      else Done (region st)
  end.

Definition positive_size (p_img : ASS_Image) : bool := (0 <? w p_img) && (0 <? h p_img).

(** [calloc_ok] tells whether the allocation of [pp_img] succeeds. *)
Definition BuildRegions (calloc_ok : bool) (i_max_region : Z)
    (p_img_list : list ASS_Image) (i_width i_height : Z) : outcome :=
  let kept := List.filter positive_size p_img_list in
  let i_count := Z.of_nat (length kept) in
  if i_count <=? 0 then Done []
  else if negb calloc_ok then Done []
  else
    build_loop (S (length kept)) i_max_region (i_maxw i_height) (i_maxh i_width) i_count
      {| pp_img := Some <$> kept; region := []; i_used := 0; b_ok := false |}.

(** ** RegionDraw *)

Record plane_t := { p_pixels : list Z; i_pitch : Z; i_visible_lines : Z }.

Record video_format_t := {
  i_chroma : Z;
  i_width : Z; i_height : Z;
  i_x_offset : Z; i_y_offset : Z;
  i_visible_width : Z; i_visible_height : Z
}.

(** [p0] is the plane [p[0]] of the picture. *)
Record picture_t := { format : video_format_t; p0 : plane_t }.

Record subpicture_region_t := {
  p_picture : picture_t;
  i_x : Z; i_y : Z;
  b_absolute : bool; b_in_window : bool;
  i_align : Z
}.

(** Byte memory: a read outside the buffer yields 0, a write outside is lost. *)
Definition load (m : list Z) (i : Z) : Z :=
  if i <? 0 then 0 else default 0 (m !! Z.to_nat i).

Definition store (m : list Z) (i v : Z) : list Z :=
  if i <? 0 then m else <[Z.to_nat i := v]> m.

Definition memset (m : list Z) (c n : Z) : list Z :=
  replicate (Z.to_nat n `min` length m)%nat (to_uint8 c) ++ drop (Z.to_nat n) m.

(** The four bytes [dst[0..3]] of one destination pixel. *)
Record pixel := { d0 : Z; d1 : Z; d2 : Z; d3 : Z }.

Definition get_pixel (m : list Z) (off : Z) : pixel :=
  {| d0 := load m off; d1 := load m (off + 1);
     d2 := load m (off + 2); d3 := load m (off + 3) |}.

Definition set_pixel (m : list Z) (off : Z) (px : pixel) : list Z :=
  store (store (store (store m off (d0 px)) (off + 1) (d1 px)) (off + 2) (d2 px))
        (off + 3) (d3 px).

(** The body of [if( opacity != 0 )]: the pixel after the block, every
    assignment to a [uint8_t] truncated by [to_uint8]. *)
Definition blend (a r g b opacity : Z) (dst : pixel) : pixel :=
  let i_an := uint_div (uint_mul a opacity) 255 in
  let i_ao := d3 dst in
  if i_ao =? 0 then
    {| d0 := to_uint8 r; d1 := to_uint8 g; d2 := to_uint8 b; d3 := to_uint8 i_an |}
  else
    let i_ani := uint_sub 255 i_an in
    let dst3 :=
      to_uint8 (uint_sub 255 (uint_div (uint_mul (uint_sub 255 i_ao) i_ani) 255)) in
    if dst3 =? 0 then
      {| d0 := d0 dst; d1 := d1 dst; d2 := d2 dst; d3 := dst3 |}
    else
      let i_aoni := uint_div (uint_mul i_ao i_ani) 255 in
      let mix c src_c :=
        to_uint8 (uint_div (uint_add (uint_mul c i_aoni) (uint_mul src_c i_an)) dst3) in
      {| d0 := mix (d0 dst) r; d1 := mix (d1 dst) g; d2 := mix (d2 dst) b; d3 := dst3 |}.

(** One sample: [opacity = *src++], blended only when nonzero. *)
Definition draw_sample (a r g b : Z) (src : list Z) (src_off dst_off : Z)
    (m : list Z) (x : nat) : list Z :=
  let opacity := load src (src_off + Z.of_nat x) in
  if opacity =? 0 then m
  else
    let off := dst_off + 4 * Z.of_nat x in
    set_pixel m off (blend a r g b opacity (get_pixel m off)).

(** The loop over [x] of one row. *)
Definition draw_row (a r g b : Z) (p_img : ASS_Image) (src_off dst_off : Z)
    (m : list Z) : list Z :=
  foldl (draw_sample a r g b (bitmap p_img) src_off dst_off) m
        (seq 0 (Z.to_nat (w p_img))).

(** The loop over [y]: [srcrow] and [dstrow] advance by their pitches. *)
Definition draw_rows (a r g b : Z) (p_img : ASS_Image) (i_pitch_dst dst_off : Z)
    (m : list Z) : list Z :=
  foldl (λ m y, draw_row a r g b p_img
                  (Z.of_nat y * stride p_img) (dst_off + Z.of_nat y * i_pitch_dst) m)
        m (seq 0 (Z.to_nat (h p_img))).

(** The body of the loop over the fragment list, on the pixels of plane 0. *)
Definition draw_image (p_region : subpicture_region_t) (m : list Z)
    (p_img : ASS_Image) : list Z :=
  let pl := p0 (p_picture p_region) in
  let i_width := to_int (i_width (format (p_picture p_region))) in
  let i_height := to_int (i_height (format (p_picture p_region))) in
  let i_dst_x := int_sub (dst_x p_img) (i_x p_region) in
  let i_dst_y := int_sub (dst_y p_img) (i_y p_region) in
  if (i_dst_x <? 0) || (i_width <? int_add i_dst_x (w p_img)) ||
     (i_dst_y <? 0) || (i_height <? int_add i_dst_y (h p_img))
  then m
  else
    let a := Z.land (Z.lxor (color p_img) 0xffffffff) 0xff in
    if a =? 0 then m
    else
      let r := Z.land (Z.shiftr (color p_img) 24) 0xff in
      let g := Z.land (Z.shiftr (color p_img) 16) 0xff in
      let b := Z.land (Z.shiftr (color p_img) 8) 0xff in
      draw_rows a r g b p_img (i_pitch pl)
        (int_add (int_mul i_dst_y (i_pitch pl)) (int_mul 4 i_dst_x)) m.

(** The pixels of plane 0 after [RegionDraw]. *)
Definition RegionDraw_pixels (p_region : subpicture_region_t)
    (p_img : list ASS_Image) : list Z :=
  let pl := p0 (p_picture p_region) in
  foldl (draw_image p_region)
        (memset (p_pixels pl) 0 (int_mul (i_pitch pl) (i_visible_lines pl)))
        p_img.

Definition RegionDraw (p_region : subpicture_region_t)
    (p_img : list ASS_Image) : subpicture_region_t :=
  let pic := p_picture p_region in
  {| p_picture :=
       {| format := format pic;
          p0 := {| p_pixels := RegionDraw_pixels p_region p_img;
                   i_pitch := i_pitch (p0 pic);
                   i_visible_lines := i_visible_lines (p0 pic) |} |};
     i_x := i_x p_region; i_y := i_y p_region;
     b_absolute := b_absolute p_region; b_in_window := b_in_window p_region;
     i_align := i_align p_region |}.

(** ** SubpictureUpdate *)

Record subpicture_t := {
  regions : list subpicture_region_t;
  i_original_picture_width : Z;
  i_original_picture_height : Z;
  i_start : Z
}.

Record vlc_spu_updater_configuration := {
  video_src : video_format_t; video_dst : video_format_t;
  prev_src : video_format_t; prev_dst : video_format_t;
  pts : Z
}.

(** What the function uses and the sources at hand do not define: the
    renderer of libass with its state, the picture allocator, the format
    comparison and a few constants.  The pixel aspect is a quotient of
    doubles; the four dimensions it is computed from are recorded instead.
    The mutex of the decoder is not modelled. *)
Record externals := {
  ASS_Renderer : Type;
  ass_set_frame_size : ASS_Renderer → Z → Z → ASS_Renderer;
  ass_set_storage_size : ASS_Renderer → Z → Z → ASS_Renderer;
  ass_set_pixel_aspect : ASS_Renderer → Z → Z → Z → Z → ASS_Renderer;
  ass_render_frame : ASS_Renderer → Z → ASS_Renderer * list ASS_Image * Z;
  video_format_IsSimilar : video_format_t → video_format_t → bool;
  subpicture_region_New : video_format_t → option subpicture_region_t;
  MS_FROM_VLC_TICK : Z → Z;
  VLC_CODEC_RGBA : Z;
  SUBPICTURE_ALIGN_TOP : Z;
  SUBPICTURE_ALIGN_LEFT : Z;
  pp_img_calloc_ok : bool
}.

(** The loop "Allocate the regions and draw them"; it stops at the first
    failed allocation. *)
Fixpoint draw_regions (E : externals) (fmt_region : video_format_t)
    (regs : list rectangle_t) (p_img : list ASS_Image) : list subpicture_region_t :=
  match regs with
  | [] => []
  | rg :: regs' =>
      let fmt :=
        {| i_chroma := i_chroma fmt_region;
           i_width := to_unsigned (int_sub (x1 rg) (x0 rg));
           i_height := to_unsigned (int_sub (y1 rg) (y0 rg));
           i_x_offset := i_x_offset fmt_region; i_y_offset := i_y_offset fmt_region;
           i_visible_width := to_unsigned (int_sub (x1 rg) (x0 rg));
           i_visible_height := to_unsigned (int_sub (y1 rg) (y0 rg)) |} in
      match subpicture_region_New E fmt with
      | None => []
      | Some r =>
          RegionDraw
            {| p_picture := p_picture r; i_x := x0 rg; i_y := y0 rg;
               b_absolute := true; b_in_window := false;
               i_align := Z.lor (SUBPICTURE_ALIGN_TOP E) (SUBPICTURE_ALIGN_LEFT E) |}
            p_img
          :: draw_regions E fmt regs' p_img
      end
  end.

(** [i_pts] is the field of the updater's private data.  The result is the
    renderer and the subpicture after the call, [None] when [BuildRegions]
    does not return. *)
Definition SubpictureUpdate (E : externals) (p_renderer : ASS_Renderer E) (i_pts : Z)
    (p_subpic : subpicture_t) (cfg : vlc_spu_updater_configuration)
    : option (ASS_Renderer E * subpicture_t) :=
  let p_fmt_src := video_src cfg in
  let p_fmt_dst := video_dst cfg in
  let b_fmt_src :=
    negb (i_visible_width p_fmt_src =? i_visible_width (prev_src cfg)) ||
    negb (i_visible_height p_fmt_src =? i_visible_height (prev_src cfg)) in
  let b_fmt_dst := negb (video_format_IsSimilar E (prev_dst cfg) p_fmt_dst) in
  let rd1 :=
    if b_fmt_src || b_fmt_dst then
      ass_set_pixel_aspect E
        (ass_set_storage_size E
           (ass_set_frame_size E p_renderer
              (i_visible_width p_fmt_dst) (i_visible_height p_fmt_dst))
           (i_visible_width p_fmt_src) (i_visible_height p_fmt_src))
        (i_visible_width p_fmt_src) (i_visible_height p_fmt_src)
        (i_visible_width p_fmt_dst) (i_visible_height p_fmt_dst)
    else p_renderer in
  let i_stream_date := i_pts + (pts cfg - i_start p_subpic) in
  let '(rd2, p_img, i_changed) :=
    ass_render_frame E rd1 (MS_FROM_VLC_TICK E i_stream_date) in
  if (i_changed =? 0) && negb b_fmt_src && negb b_fmt_dst &&
     eqb (negb (bool_decide (p_img = [])))
         (negb (bool_decide (regions p_subpic = [])))
  then Some (rd2, p_subpic)
  else
    let i_max_region := 4 in
    match BuildRegions (pp_img_calloc_ok E) i_max_region p_img
            (to_int (i_width p_fmt_dst)) (to_int (i_height p_fmt_dst)) with
    | Done regs =>
        let fmt_region :=
          {| i_chroma := VLC_CODEC_RGBA E;
             i_width := i_width p_fmt_dst; i_height := i_height p_fmt_dst;
             i_x_offset := 0; i_y_offset := 0;
             i_visible_width := i_visible_width p_fmt_dst;
             i_visible_height := i_visible_height p_fmt_dst |} in
        Some (rd2,
              {| regions := draw_regions E fmt_region regs p_img;
                 i_original_picture_width := i_visible_width p_fmt_dst;
                 i_original_picture_height := i_visible_height p_fmt_dst;
                 i_start := i_start p_subpic |})
    | _ => None
    end.

(** ** Notions used in the statements *)

(** The mergeability test as [BuildRegions] calls it: region first, fragment
    second, [i_maxw] for the x axis and [i_maxh] for the y axis. *)
Definition mergeable (i_width i_height : Z) (rg r : rectangle_t) : bool :=
  r_overlap rg r (i_maxw i_height) (i_maxh i_width).

(** The rectangle grown outward by [dx] and [dy]. *)
Definition expand (r : rectangle_t) (dx dy : Z) : rectangle_t :=
  {| x0 := x0 r - dx; y0 := y0 r - dy; x1 := x1 r + dx; y1 := y1 r + dy |}.

(** Two rectangles share a strip of positive width on both axes. *)
Definition strict_overlap (a b : rectangle_t) : Prop :=
  Z.max (x0 a) (x0 b) < Z.min (x1 a) (x1 b) ∧
  Z.max (y0 a) (y0 b) < Z.min (y1 a) (y1 b).

(** [q] is the quotient [n / d] rounded up. *)
Definition is_ceil (n d q : Z) : Prop := d * (q - 1) < n ≤ d * q.

(** The specification's mergeability: both boxes expanded by
    [dx = max(ceil(W/50), 32)] and [dy = max(ceil(H/100), 32)]. *)
Definition spec_mergeable (W H : Z) (a b : rectangle_t) : Prop :=
  ∃ cw ch, is_ceil W 50 cw ∧ is_ceil H 100 ch ∧
    strict_overlap (expand a (Z.max cw 32) (Z.max ch 32))
                   (expand b (Z.max cw 32) (Z.max ch 32)).

(** [inner] lies within [outer]. *)
Definition contains (outer inner : rectangle_t) : Prop :=
  x0 outer ≤ x0 inner ∧ y0 outer ≤ y0 inner ∧
  x1 inner ≤ x1 outer ∧ y1 inner ≤ y1 outer.

(** The bounding box of a fragment, in exact arithmetic. *)
Definition bounding_box (f : ASS_Image) : rectangle_t :=
  {| x0 := dst_x f; y0 := dst_y f; x1 := dst_x f + w f; y1 := dst_y f + h f |}.

(** Coordinates for which no [int] operation of the partitioner wraps: the
    surface of any rectangle inside the square stays below 2^30. *)
Definition coord_limit : Z := 16384.

Definition in_canvas (f : ASS_Image) : Prop :=
  - coord_limit ≤ dst_x f ∧ dst_x f + w f ≤ coord_limit ∧
  - coord_limit ≤ dst_y f ∧ dst_y f + h f ≤ coord_limit.

(** The choice the specification words for the absorbing region: among the
    regions the fragment is mergeable with, the one whose own surface is
    smallest, the lowest index on a tie; [-1] when there is none. *)
Definition spec_find_best_step (regs : list rectangle_t) (r : rectangle_t)
    (maxw maxh : Z) (acc : Z * Z) (k : nat) : Z * Z :=
  match regs !! k with
  | Some rk =>
      if r_overlap rk r maxw maxh then
        if r_surface rk <? acc.2 then (Z.of_nat k, r_surface rk) else acc
      else acc
  | None => acc
  end.

Definition spec_find_best (regs : list rectangle_t) (r : rectangle_t)
    (maxw maxh : Z) : Z :=
  (foldl (spec_find_best_step regs r maxw maxh) (-1, INT_MAX) (seq 0 (length regs))).1.

(** The pair [(i, j)] precedes [(i', j')] in the order of the double loop. *)
Definition lex_lt (i j i' j' : nat) : Prop := (i < i')%nat ∨ (i = i' ∧ (j < j')%nat).

(** The blend of the specification, in unbounded integer arithmetic. *)
Definition spec_an (alpha opacity : Z) : Z := (alpha * opacity) `div` 255.
Definition spec_new_a (dst_a an : Z) : Z :=
  255 - ((255 - dst_a) * (255 - an)) `div` 255.
Definition spec_aoni (dst_a an : Z) : Z := (dst_a * (255 - an)) `div` 255.
Definition spec_channel (c src_c dst_a an : Z) : Z :=
  (c * spec_aoni dst_a an + src_c * an) `div` spec_new_a dst_a an.

Definition spec_blend (alpha r g b opacity : Z) (dst : pixel) : pixel :=
  let an := spec_an alpha opacity in
  if d3 dst =? 0 then {| d0 := r; d1 := g; d2 := b; d3 := an |}
  else if spec_new_a (d3 dst) an =? 0 then
    {| d0 := d0 dst; d1 := d1 dst; d2 := d2 dst; d3 := 0 |}
  else
    {| d0 := spec_channel (d0 dst) r (d3 dst) an;
       d1 := spec_channel (d1 dst) g (d3 dst) an;
       d2 := spec_channel (d2 dst) b (d3 dst) an;
       d3 := spec_new_a (d3 dst) an |}.

Definition is_byte (z : Z) : Prop := 0 ≤ z ≤ 255.

Definition byte_pixel (px : pixel) : Prop :=
  is_byte (d0 px) ∧ is_byte (d1 px) ∧ is_byte (d2 px) ∧ is_byte (d3 px).

(** The fragment's rectangle lies inside the picture of the region. *)
Definition fits_inside (p_region : subpicture_region_t) (p_img : ASS_Image) : Prop :=
  0 ≤ dst_x p_img - i_x p_region ∧
  dst_x p_img - i_x p_region + w p_img ≤ i_width (format (p_picture p_region)) ∧
  0 ≤ dst_y p_img - i_y p_region ∧
  dst_y p_img - i_y p_region + h p_img ≤ i_height (format (p_picture p_region)).

(** Positions and sizes for which the offsets computed by [RegionDraw] do
    not wrap, and a picture size that fits an [int]. *)
Definition draw_limit : Z := 536870912.

Definition draw_in_range (p_region : subpicture_region_t) (p_img : ASS_Image) : Prop :=
  - draw_limit ≤ dst_x p_img ≤ draw_limit ∧ - draw_limit ≤ dst_y p_img ≤ draw_limit ∧
  - draw_limit ≤ i_x p_region ≤ draw_limit ∧ - draw_limit ≤ i_y p_region ≤ draw_limit ∧
  - draw_limit ≤ w p_img ≤ draw_limit ∧ - draw_limit ≤ h p_img ≤ draw_limit ∧
  0 ≤ i_width (format (p_picture p_region)) ≤ INT_MAX ∧
  0 ≤ i_height (format (p_picture p_region)) ≤ INT_MAX.

(** Sample data of the scenarios. *)
Definition fragment_at (x y ww hh : Z) : ASS_Image :=
  {| w := ww; h := hh; stride := ww; bitmap := replicate (Z.to_nat (ww * hh)) 255;
     color := 0xffffff00; dst_x := x; dst_y := y |}.

Definition picture_region (x y ww hh : Z) (px : list Z) : subpicture_region_t :=
  {| p_picture :=
       {| format := {| i_chroma := 0; i_width := ww; i_height := hh;
                       i_x_offset := 0; i_y_offset := 0;
                       i_visible_width := ww; i_visible_height := hh |};
          p0 := {| p_pixels := px; i_pitch := 4 * ww; i_visible_lines := hh |} |};
     i_x := x; i_y := y; b_absolute := true; b_in_window := false; i_align := 0 |}.

(** Scenario A: one fragment of size 2x1, opacity row [255; 128], colour
    (200, 100, 50) and inverted alpha 0, drawn on a zeroed 2x1 picture. *)
Definition scenario_A_fragment : ASS_Image :=
  {| w := 2; h := 1; stride := 2; bitmap := [255; 128];
     color := 0xc8643200; dst_x := 0; dst_y := 0 |}.

Definition scenario_A_region : subpicture_region_t :=
  picture_region 0 0 2 1 (replicate 8 0).

(** A renderer that never reports a change and returns the fragment of
    scenario A, with an allocator that always fails. *)
Definition still_externals : externals :=
  {| ASS_Renderer := unit;
     ass_set_frame_size := λ rd _ _, rd;
     ass_set_storage_size := λ rd _ _, rd;
     ass_set_pixel_aspect := λ rd _ _ _ _, rd;
     ass_render_frame := λ rd _, (rd, [scenario_A_fragment], 0);
     video_format_IsSimilar := λ _ _, true;
     subpicture_region_New := λ _, None;
     MS_FROM_VLC_TICK := λ t, t `quot` 1000;
     VLC_CODEC_RGBA := 0;
     SUBPICTURE_ALIGN_TOP := 4;
     SUBPICTURE_ALIGN_LEFT := 1;
     pp_img_calloc_ok := true |}.

Definition sample_format : video_format_t :=
  {| i_chroma := 0; i_width := 1000; i_height := 1000;
     i_x_offset := 0; i_y_offset := 0;
     i_visible_width := 1000; i_visible_height := 1000 |}.

Definition sample_cfg : vlc_spu_updater_configuration :=
  {| video_src := sample_format; video_dst := sample_format;
     prev_src := sample_format; prev_dst := sample_format; pts := 0 |}.

Definition sample_subpicture : subpicture_t :=
  {| regions := [scenario_A_region];
     i_original_picture_width := 1000; i_original_picture_height := 1000;
     i_start := 0 |}.

(** Two boxes 40 pixels apart on a 1000x1000 canvas, where both tolerances
    are 32. *)
Definition near_region : rectangle_t := r_create 0 0 10 10.
Definition near_fragment : rectangle_t := r_create 50 0 60 10.

(** Seven fragments on a 1000x1000 canvas, partitioned with the cap of four
    that [SubpictureUpdate] passes.  The fifth seed overflows the cap and
    the first two regions collapse into (0,0)-(210,10); the sixth fragment
    seeds (100,50)-(110,60); the seventh is then mergeable with both. *)
Definition seven_fragments : list ASS_Image :=
  [fragment_at 0 0 10 10; fragment_at 200 0 10 10; fragment_at 0 500 10 10;
   fragment_at 300 500 10 10; fragment_at 0 900 10 10;
   fragment_at 100 50 10 10; fragment_at 100 35 10 10].

Definition regions_before_seventh : list rectangle_t :=
  [r_create 0 0 210 10; r_create 0 500 10 510; r_create 300 500 310 510;
   r_create 0 900 10 910; r_create 100 50 110 60].

(** The lowest slot whose region passes the overlap test with [r]. *)
Fixpoint first_mergeable (regs : list rectangle_t) (r : rectangle_t)
    (maxw maxh : Z) : option nat :=
  match regs with
  | [] => None
  | rk :: regs' =>
      if r_overlap rk r maxw maxh then Some O
      else S <$> first_mergeable regs' r maxw maxh
  end.

(** Surface and area increase in exact arithmetic. *)
Definition area (rg : rectangle_t) : Z := (x1 rg - x0 rg) * (y1 rg - y0 rg).

Definition area_increase (a b : rectangle_t) : Z :=
  area (r_add a b) - area a - area b.

(** ** Invariants of the partitioner *)

(** A region rectangle inside the square of [coord_limit], not inverted. *)
Definition well_bounded (rg : rectangle_t) : Prop :=
  - coord_limit ≤ x0 rg ∧ x0 rg ≤ x1 rg ∧ x1 rg ≤ coord_limit ∧
  - coord_limit ≤ y0 rg ∧ y0 rg ≤ y1 rg ∧ y1 rg ≤ coord_limit.

(** The number of fragments not yet assigned to a region. *)
Fixpoint unassigned (pp : list (option ASS_Image)) : nat :=
  match pp with
  | [] => 0
  | Some _ :: pp' => S (unassigned pp')
  | None :: pp' => unassigned pp'
  end.

(** Every rectangle of [old] lies within some rectangle of [new]. *)
Definition covers (new old : list rectangle_t) : Prop :=
  ∀ rg, rg ∈ old → ∃ rg', rg' ∈ new ∧ contains rg' rg.

(** What holds of the state of [BuildRegions] between any two steps, for the
    array [kept] of fragments of positive size. *)
Record build_inv (kept : list ASS_Image) (st : build_state) : Prop := {
  inv_length : length (pp_img st) = length kept;
  inv_used : i_used st = Z.of_nat (length kept) - Z.of_nat (unassigned (pp_img st));
  inv_slots : ∀ n f, kept !! n = Some f →
    pp_img st !! n = Some (Some f) ∨
    (pp_img st !! n = Some None ∧ ∃ rg, rg ∈ region st ∧ contains rg (r_img f));
  inv_regions : Forall well_bounded (region st)
}.

(** What one pass over the fragments keeps: the invariant, the number of
    regions, and a budget that drops whenever [b_ok] is raised. *)
Definition scan_keeps (kept : list ASS_Image) (r0 u0 : nat) (st : build_state) : Prop :=
  build_inv kept st ∧ length (region st) = r0 ∧
  (unassigned (pp_img st) + (if b_ok st then 1 else 0) ≤ u0)%nat.

(** The area increase of the pair of slots [(a, b)]. *)
Definition cost_at (regs : list rectangle_t) (a b : nat) : Z :=
  match regs !! a, regs !! b with
  | Some ra, Some rb => merge_cost ra rb
  | _, _ => INT_MAX
  end.

(** The pairs the double loop has visited when it is about to visit
    [(i, j)]. *)
Definition seen_upto (n i j a b : nat) : Prop :=
  (a < b < n)%nat ∧ lex_lt a b i j.

Definition no_choice : merge_choice :=
  {| i_best_i := -1; i_best_j := -1; i_best_ds := INT_MAX |}.

(** [acc] is the first pair of least cost among the visited ones, or nothing
    when no visited pair costs less than [INT_MAX]. *)
Definition first_min (regs : list rectangle_t) (seen : nat → nat → Prop)
    (acc : merge_choice) : Prop :=
  (acc = no_choice ∧ ∀ a b, seen a b → INT_MAX ≤ cost_at regs a b) ∨
  (∃ i j, acc = {| i_best_i := Z.of_nat i; i_best_j := Z.of_nat j;
                   i_best_ds := cost_at regs i j |} ∧
          seen i j ∧ cost_at regs i j < INT_MAX ∧
          ∀ a b, seen a b →
            cost_at regs i j ≤ cost_at regs a b ∧
            (cost_at regs a b = cost_at regs i j → ¬ lex_lt a b i j)).

(** ** The decoder: reference count, Flush and DecodeBlock *)

(** A [vlc_tick_t] is a 64-bit signed integer. *)
Definition to_int64 (z : Z) : Z :=
  (z + 9223372036854775808) `mod` 18446744073709551616 - 9223372036854775808.

(** One call of [ass_process_chunk]: the buffer, its size, and the start and
    the duration in milliseconds.  A track is the list of the chunks it was
    fed, the latest first. *)
Record ass_chunk := {
  chunk_data : list Z; chunk_size : Z; chunk_timecode : Z; chunk_duration : Z
}.

(** The pointers to the library and the renderer are kept as their being
    non-null; the mutex is not modelled. *)
Record decoder_sys_t := {
  i_last_pts : Z;
  i_max_stop : Z;
  i_refcount : Z;
  p_library : bool;
  p_renderer : bool;
  p_track : option (list ass_chunk)
}.

Record block_t := {
  i_flags : Z;
  p_buffer : list Z;
  i_buffer : Z;
  i_pts : Z;
  i_length : Z
}.

(** The fields [DecodeBlock] sets in the subpicture it queues, and the
    [i_pts] of its updater. *)
Record queued_subpicture := {
  spu_start : Z; spu_stop : Z; spu_ephemer : bool; spu_updater_pts : Z
}.

(** Constants of the headers that the sources at hand do not define. *)
Record decoder_constants := {
  VLC_TICK_INVALID : Z;
  BLOCK_FLAG_CORRUPTED : Z
}.

(** What [DecSysRelease] hands back to libass and to [free] when the last
    reference goes. *)
Inductive teardown_call :=
| ass_free_track | ass_renderer_done | ass_library_done | free_sys.

Definition DecSysHold (p_sys : decoder_sys_t) : decoder_sys_t :=
  {| i_last_pts := i_last_pts p_sys; i_max_stop := i_max_stop p_sys;
     i_refcount := int_add (i_refcount p_sys) 1;
     p_library := p_library p_sys; p_renderer := p_renderer p_sys;
     p_track := p_track p_sys |}.

(** [inl]: the state lives on; [inr]: it was torn down, by these calls. *)
Definition DecSysRelease (p_sys : decoder_sys_t) : decoder_sys_t + list teardown_call :=
  let i_refcount' := int_sub (i_refcount p_sys) 1 in
  if 0 <? i_refcount' then
    inl {| i_last_pts := i_last_pts p_sys; i_max_stop := i_max_stop p_sys;
           i_refcount := i_refcount';
           p_library := p_library p_sys; p_renderer := p_renderer p_sys;
           p_track := p_track p_sys |}
  else
    inr ((match p_track p_sys with Some _ => [ass_free_track] | None => [] end) ++
         (if p_renderer p_sys then [ass_renderer_done] else []) ++
         (if p_library p_sys then [ass_library_done] else []) ++
         [free_sys]).

Definition Flush (K : decoder_constants) (p_sys : decoder_sys_t) : decoder_sys_t :=
  {| i_last_pts := VLC_TICK_INVALID K; i_max_stop := VLC_TICK_INVALID K;
     i_refcount := i_refcount p_sys;
     p_library := p_library p_sys; p_renderer := p_renderer p_sys;
     p_track := p_track p_sys |}.

(** [malloc_ok] and [spu_ok] tell whether the allocation of the updater data
    and [decoder_NewSubpicture] succeed.  The result is the decoder state
    after the call and the subpicture queued, if any; the return value is
    [VLCDEC_SUCCESS] on every path. *)
Definition DecodeBlock (E : externals) (K : decoder_constants)
    (malloc_ok spu_ok : bool) (p_sys : decoder_sys_t) (p_block : option block_t)
    : decoder_sys_t * option queued_subpicture :=
  match p_block with
  | None => (p_sys, None)
  | Some blk =>
      if negb (Z.land (i_flags blk) (BLOCK_FLAG_CORRUPTED K) =? 0) then
        (Flush K p_sys, None)
      else if (i_buffer blk =? 0) || (load (p_buffer blk) 0 =? 0) then
        (p_sys, None)
      else
        let feed sys :=
          {| i_last_pts := i_pts blk; i_max_stop := i_max_stop sys;
             i_refcount := i_refcount sys;
             p_library := p_library sys; p_renderer := p_renderer sys;
             p_track :=
               match p_track sys with
               | Some chunks =>
                   Some ({| chunk_data := p_buffer blk; chunk_size := i_buffer blk;
                            chunk_timecode := MS_FROM_VLC_TICK E (i_pts blk);
                            chunk_duration := MS_FROM_VLC_TICK E (i_length blk) |}
                         :: chunks)
               | None => None
               end |} in
        if negb (i_pts blk =? i_last_pts p_sys) then
          if negb malloc_ok then (p_sys, None)
          else if negb spu_ok then (p_sys, None)
          else
            let i_stop := MAX (i_max_stop p_sys) (to_int64 (i_pts blk + i_length blk)) in
            let sys1 :=
              DecSysHold
                {| i_last_pts := i_last_pts p_sys; i_max_stop := i_stop;
                   i_refcount := i_refcount p_sys;
                   p_library := p_library p_sys; p_renderer := p_renderer p_sys;
                   p_track := p_track p_sys |} in
            (feed sys1,
             Some {| spu_start := i_pts blk; spu_stop := i_stop;
                     spu_ephemer := true; spu_updater_pts := i_pts blk |})
        else (feed p_sys, None)
  end.

(** The decoder fed a sequence of blocks, each with the outcome of its two
    allocations; the subpictures queued, in order. *)
Fixpoint DecodeBlocks (E : externals) (K : decoder_constants)
    (p_sys : decoder_sys_t) (blocks : list (bool * bool * block_t))
    : decoder_sys_t * list queued_subpicture :=
  match blocks with
  | [] => (p_sys, [])
  | (malloc_ok, spu_ok, blk) :: rest =>
      let '(sys1, queued) := DecodeBlock E K malloc_ok spu_ok p_sys (Some blk) in
      let '(sys2, more) := DecodeBlocks E K sys1 rest in
      (sys2, match queued with Some q => q :: more | None => more end)
  end.

(** [SubpictureDestroy] and [Destroy] both come down to [DecSysRelease]. *)
Definition SubpictureDestroy (p_dec_sys : decoder_sys_t)
    : decoder_sys_t + list teardown_call := DecSysRelease p_dec_sys.

Definition Destroy (p_sys : decoder_sys_t) : decoder_sys_t + list teardown_call :=
  DecSysRelease p_sys.

(** A block that is neither corrupted nor empty nor led by a NUL byte. *)
Definition usable_block (K : decoder_constants) (blk : block_t) : Prop :=
  Z.land (i_flags blk) (BLOCK_FLAG_CORRUPTED K) = 0 ∧
  i_buffer blk ≠ 0 ∧ load (p_buffer blk) 0 ≠ 0.

Definition sample_constants : decoder_constants :=
  {| VLC_TICK_INVALID := 0; BLOCK_FLAG_CORRUPTED := 0x1000 |}.

Definition sample_sys : decoder_sys_t :=
  {| i_last_pts := 0; i_max_stop := 0; i_refcount := 1;
     p_library := true; p_renderer := true; p_track := Some [] |}.

Definition sample_block (t len : Z) : block_t :=
  {| i_flags := 0; p_buffer := [49; 44; 48]; i_buffer := 3; i_pts := t; i_length := len |}.

(** [n] calls of [DecSysRelease] in a row; once the state is torn down the
    calls that tore it down are kept. *)
Fixpoint release_times (n : nat) (p_sys : decoder_sys_t)
    : decoder_sys_t + list teardown_call :=
  match n with
  | O => inl p_sys
  | S n' =>
      match DecSysRelease p_sys with
      | inl p_sys' => release_times n' p_sys'
      | inr calls => inr calls
      end
  end.

(** The state with another reference count. *)
Definition with_refcount (p_sys : decoder_sys_t) (n : Z) : decoder_sys_t :=
  {| i_last_pts := i_last_pts p_sys; i_max_stop := i_max_stop p_sys;
     i_refcount := n;
     p_library := p_library p_sys; p_renderer := p_renderer p_sys;
     p_track := p_track p_sys |}.

(** The calls that tear the state down: what is non-null is handed back,
    the track first, then the renderer, then the library, then the state
    itself. *)
Definition teardown_calls (p_sys : decoder_sys_t) : list teardown_call :=
  (match p_track p_sys with Some _ => [ass_free_track] | None => [] end) ++
  (if p_renderer p_sys then [ass_renderer_done] else []) ++
  (if p_library p_sys then [ass_library_done] else []) ++ [free_sys].

(** ** OldEngineClunkyRollInfoPatch *)

(** A line is a C string without its terminator.  [has_prefix lit s] is
    [!strncmp( s, lit, n )] for [n] the length of the literal. *)
Definition has_prefix (lit s : string) : bool := String.prefix lit s.

(** [strstr( s, needle ) != NULL]. *)
Fixpoint strstr_found (s needle : string) : bool :=
  String.prefix needle s ||
  match s with
  | EmptyString => false
  | String _ s' => strstr_found s' needle
  end.

(** [s[n]] as a number; the byte after the last character is the NUL. *)
Definition char_at (s : string) (n : nat) : Z :=
  match String.get n s with
  | Some c => Z.of_N (Ascii.N_of_ascii c)
  | None => 0
  end.

(** [&s[n]]. *)
Fixpoint string_from (n : nat) (s : string) : string :=
  match n, s with
  | O, _ => s
  | S n', String _ s' => string_from n' s'
  | S _, EmptyString => EmptyString
  end.

Definition crunchyroll_marker : string := "[http://www.crunchyroll.com/user/".

(** The loop over the lines that follow the header; [lines] is what
    [vlc_stream_ReadLine] returns, call after call, and [atoi] the function
    of the C library.  The result is [playres] and [b_hotfix] when the loop
    is left. *)
Fixpoint script_info_loop (atoi : string → Z) (lines : list string)
    (playres : Z * Z) (b_hotfix : bool) : (Z * Z) * bool :=
  match lines with
  | [] => (playres, b_hotfix)
  | s :: rest =>
      if char_at s 0 =? 91 then (playres, b_hotfix)
      else if has_prefix "PlayResX: " s || has_prefix "PlayResY: " s then
        let idx := char_at s 7 - 88 in
        let v := to_unsigned (atoi (string_from 9 s)) in
        let playres' :=
          if idx =? 0 then (v, playres.2)
          else if idx =? 1 then (playres.1, v)
          else playres in
        script_info_loop atoi rest playres' b_hotfix
      else if has_prefix "Original Script: " s then
        if strstr_found s crunchyroll_marker
        then script_info_loop atoi rest playres true
        else (playres, false)
      else if has_prefix "LayoutRes" s || has_prefix "ScaledBorderAndShadow:" s then
        (playres, false)
      else script_info_loop atoi rest playres b_hotfix
  end.

(** [Some (x, y)] when the track is patched: [ScaledBorderAndShadow] is set,
    the colour matrix is set to none and the layout resolution to [x] by
    [y]; [None] when the track is left alone. *)
Definition OldEngineClunkyRollInfoPatch (atoi : string → Z) (i_extra : Z)
    (lines : list string) : option (Z * Z) :=
  if i_extra =? 0 then None
  else
    match lines with
    | s :: rest =>
        if has_prefix "[Script Info]" s then
          let '(playres, b_hotfix) := script_info_loop atoi rest (0, 0) false in
          if b_hotfix && negb (playres.1 =? 0) && negb (playres.2 =? 0)
          then Some playres else None
        else None
    | [] => None
    end.

(** A stand-in for [atoi] on the sample lines. *)
Definition sample_atoi (s : string) : Z :=
  if String.eqb s " 640" then 640 else if String.eqb s " 360" then 360 else 0.


(** ** Create: which attachments are loaded as fonts *)

Fixpoint string_map (f : Ascii.ascii → Ascii.ascii) (s : string) : string :=
  match s with
  | EmptyString => EmptyString
  | String c s' => String (f c) (string_map f s')
  end.

(** [!strcasecmp( a, b )]: equal once both are brought to lower case by the
    [tolower] of the C library. *)
Definition strcasecmp_equal (tolower : Ascii.ascii → Ascii.ascii) (a b : string) : bool :=
  String.eqb (string_map tolower a) (string_map tolower b).

(** The value of [found] for one attachment of [Create]. *)
Definition is_font_attachment (tolower : Ascii.ascii → Ascii.ascii)
    (psz_mime psz_name : string) : bool :=
  if strcasecmp_equal tolower psz_mime "application/x-truetype-font" then true
  else if (4 <? String.length psz_name)%nat then
    let ext := string_from (String.length psz_name - 4) psz_name in
    strcasecmp_equal tolower ext ".ttf" || strcasecmp_equal tolower ext ".otf" ||
    strcasecmp_equal tolower ext ".ttc"
  else false.

(** The attachments handed to [ass_add_font], in order. *)
Definition fonts_added (tolower : Ascii.ascii → Ascii.ascii)
    (attachments : list (string * string)) : list (string * string) :=
  List.filter (λ a, is_font_attachment tolower a.1 a.2) attachments.

(** [tolower] of the C locale. *)
Definition ascii_tolower (c : Ascii.ascii) : Ascii.ascii :=
  let n := Ascii.N_of_ascii c in
  if ((65 <=? n) && (n <=? 90))%N then Ascii.ascii_of_N (n + 32) else c.

(** ** The fuzzer harness: the target named by the program name *)

(** [strstr( s, needle )]: the rest of [s] from the first place where
    [needle] occurs. *)
Fixpoint strstr (s needle : string) : option string :=
  if String.prefix needle s then Some s
  else
    match s with
    | EmptyString => None
    | String _ s' => strstr s' needle
    end.

(** [args.name] after [LLVMFuzzerInitialize], given [args.name] as
    [vlc_run_args_init] left it and the program name [*argv[0]]. *)
Definition LLVMFuzzerInitialize_name (args_name : option string) (name : string)
    : option string :=
  match args_name with
  | Some _ => args_name
  | None =>
      match strstr name "-libfuzzer" with
      | Some target_start =>
          if char_at target_start 10 =? 45
          then Some (string_from 11 target_start)
          else None
      | None => None
      end
  end.

(** The counters of [BuildRegions] for [n] fragments of positive size:
    [i_used] counts the assigned ones, and there are no more regions than
    assigned fragments. *)
Definition count_inv (n : nat) (st : build_state) : Prop :=
  i_used st = Z.of_nat n - Z.of_nat (unassigned (pp_img st)) ∧
  (length (region st) + unassigned (pp_img st) ≤ n)%nat.

(** ** Further notions *)

(** A rectangle of positive width and height. *)
Definition positive_rect (rg : rectangle_t) : Prop := x0 rg < x1 rg ∧ y0 rg < y1 rg.

(** A predicate on rectangles holds of every region built so far and of the
    rectangle of every fragment still unassigned. *)
Definition regions_satisfy (P : rectangle_t → Prop) (st : build_state) : Prop :=
  (∀ n f, pp_img st !! n = Some (Some f) → P (r_img f)) ∧ Forall P (region st).

(** A picture whose rows hold its width, whose height and size fit an
    [int], and whose buffer has exactly [i_pitch] bytes per visible line. *)
Definition picture_geometry_ok (p_region : subpicture_region_t) : Prop :=
  let pl := p0 (p_picture p_region) in
  let fmt := format (p_picture p_region) in
  0 ≤ i_width fmt ∧ 0 ≤ i_height fmt ∧
  4 * i_width fmt ≤ i_pitch pl ∧ i_pitch pl ≤ INT_MAX ∧
  i_pitch pl * i_height fmt ≤ INT_MAX.

Definition buffer_is_whole (p_region : subpicture_region_t) : Prop :=
  let pl := p0 (p_picture p_region) in
  0 ≤ i_pitch pl * i_visible_lines pl ≤ INT_MAX ∧
  Z.of_nat (length (p_pixels pl)) = i_pitch pl * i_visible_lines pl.

(** The pixel [(X, Y)] of the picture lies in the rectangle of the fragment. *)
Definition in_fragment (p_region : subpicture_region_t) (p_img : ASS_Image)
    (X Y : Z) : Prop :=
  dst_x p_img - i_x p_region ≤ X < dst_x p_img - i_x p_region + w p_img ∧
  dst_y p_img - i_y p_region ≤ Y < dst_y p_img - i_y p_region + h p_img.

(** The region [SubpictureUpdate] sets up for the rectangle [rg]: placed at
    the origin of [rg], with a picture of the size of [rg]. *)
Definition region_for (rg : rectangle_t) (p_region : subpicture_region_t) : Prop :=
  i_x p_region = x0 rg ∧ i_y p_region = y0 rg ∧
  i_width (format (p_picture p_region)) = to_unsigned (int_sub (x1 rg) (x0 rg)) ∧
  i_height (format (p_picture p_region)) = to_unsigned (int_sub (y1 rg) (y0 rg)).

(** The renderer as [SubpictureUpdate] has configured it when it asks for
    the frame, and what the renderer then answers. *)
Definition reconfigured (E : externals) (p_renderer : ASS_Renderer E)
    (cfg : vlc_spu_updater_configuration) : ASS_Renderer E :=
  if negb (i_visible_width (video_src cfg) =? i_visible_width (prev_src cfg)) ||
     negb (i_visible_height (video_src cfg) =? i_visible_height (prev_src cfg)) ||
     negb (video_format_IsSimilar E (prev_dst cfg) (video_dst cfg))
  then
    ass_set_pixel_aspect E
      (ass_set_storage_size E
         (ass_set_frame_size E p_renderer
            (i_visible_width (video_dst cfg)) (i_visible_height (video_dst cfg)))
         (i_visible_width (video_src cfg)) (i_visible_height (video_src cfg)))
      (i_visible_width (video_src cfg)) (i_visible_height (video_src cfg))
      (i_visible_width (video_dst cfg)) (i_visible_height (video_dst cfg))
  else p_renderer.

Definition rendered (E : externals) (p_renderer : ASS_Renderer E) (i_pts : Z)
    (p_subpic : subpicture_t) (cfg : vlc_spu_updater_configuration)
    : ASS_Renderer E * list ASS_Image * Z :=
  ass_render_frame E (reconfigured E p_renderer cfg)
    (MS_FROM_VLC_TICK E (i_pts + (pts cfg - i_start p_subpic))).


(** A renderer with nothing to show. *)
Definition blank_externals : externals :=
  {| ASS_Renderer := unit;
     ass_set_frame_size := λ rd _ _, rd;
     ass_set_storage_size := λ rd _ _, rd;
     ass_set_pixel_aspect := λ rd _ _ _ _, rd;
     ass_render_frame := λ rd _, (rd, [], 1);
     video_format_IsSimilar := λ _ _, true;
     subpicture_region_New := λ _, None;
     MS_FROM_VLC_TICK := λ t, t `quot` 1000;
     VLC_CODEC_RGBA := 0;
     SUBPICTURE_ALIGN_TOP := 4;
     SUBPICTURE_ALIGN_LEFT := 1;
     pp_img_calloc_ok := true |}.

(** * Properties *)

(** ** Machine arithmetic *)

Lemma to_int_id z : INT_MIN ≤ z ≤ INT_MAX → to_int z = z.
Proof.
  unfold INT_MIN, INT_MAX, to_int. intros Hz.
  rewrite Z.mod_small by lia. lia.
Qed.

Lemma to_int_range z : INT_MIN ≤ to_int z ≤ INT_MAX.
Proof.
  unfold INT_MIN, INT_MAX, to_int.
  pose proof (Z.mod_pos_bound (z + 2147483648) 4294967296). lia.
Qed.

Lemma to_unsigned_id z : 0 ≤ z < 4294967296 → to_unsigned z = z.
Proof. intros Hz. unfold to_unsigned. by rewrite Z.mod_small. Qed.

Lemma to_uint8_id z : is_byte z → to_uint8 z = z.
Proof. unfold is_byte, to_uint8. intros Hz. rewrite Z.mod_small; lia. Qed.

Lemma MIN_min a b : MIN a b = Z.min a b.
Proof. unfold MIN. destruct (Z.ltb_spec a b); lia. Qed.

Lemma MAX_max a b : MAX a b = Z.max a b.
Proof. unfold MAX. destruct (Z.ltb_spec b a); lia. Qed.

(** Floor division by 255 of a product of two bytes. *)
Lemma div255_bounds x : 0 ≤ x → 255 * (x `div` 255) ≤ x < 255 * (x `div` 255) + 255.
Proof.
  intros Hx. pose proof (Z.div_mod x 255). pose proof (Z.mod_pos_bound x 255). lia.
Qed.

Lemma byte_mul_div255 x y : is_byte x → is_byte y → 0 ≤ (x * y) `div` 255 ≤ Z.min x y.
Proof.
  unfold is_byte. intros Hx Hy.
  assert (0 ≤ x * y) as Hxy by nia.
  assert (x * y ≤ 255 * x) by nia.
  assert (x * y ≤ 255 * y) by nia.
  pose proof (div255_bounds (x * y) Hxy). lia.
Qed.

(** ** The blend arithmetic *)

Section BlendArithmetic.
Variables alpha opacity dst_a : Z.
Hypothesis Halpha : is_byte alpha.
Hypothesis Hopacity : is_byte opacity.
Hypothesis Hdst_a : is_byte dst_a.

Lemma spec_an_byte : is_byte (spec_an alpha opacity).
Proof.
  pose proof (byte_mul_div255 alpha opacity Halpha Hopacity).
  unfold is_byte, spec_an in *. lia.
Qed.

Lemma spec_new_a_bounds :
  dst_a ≤ spec_new_a dst_a (spec_an alpha opacity) ≤ 255 ∧
  spec_an alpha opacity ≤ spec_new_a dst_a (spec_an alpha opacity).
Proof.
  pose proof spec_an_byte as Han. set (an := spec_an alpha opacity) in *.
  assert (is_byte (255 - dst_a)) as H1 by (unfold is_byte in *; lia).
  assert (is_byte (255 - an)) as H2 by (unfold is_byte in *; lia).
  pose proof (byte_mul_div255 _ _ H1 H2).
  unfold spec_new_a. lia.
Qed.

Lemma spec_aoni_bounds :
  0 ≤ spec_aoni dst_a (spec_an alpha opacity) ≤ 255 ∧
  spec_aoni dst_a (spec_an alpha opacity) + spec_an alpha opacity
    ≤ spec_new_a dst_a (spec_an alpha opacity).
Proof.
  pose proof spec_an_byte as Han. set (an := spec_an alpha opacity) in *.
  assert (is_byte (255 - an)) as H2 by (unfold is_byte in *; lia).
  pose proof (byte_mul_div255 _ _ Hdst_a H2) as Hq1.
  unfold spec_aoni, spec_new_a. unfold is_byte in *.
  assert (0 ≤ dst_a * (255 - an)) as Hp1 by nia.
  assert (0 ≤ (255 - dst_a) * (255 - an)) as Hp2 by nia.
  pose proof (div255_bounds _ Hp1). pose proof (div255_bounds _ Hp2).
  split; [lia|]. nia.
Qed.

Lemma spec_channel_byte c src_c :
  is_byte c → is_byte src_c →
  is_byte (spec_channel c src_c dst_a (spec_an alpha opacity)).
Proof.
  intros Hc Hs.
  pose proof spec_an_byte as Han.
  destruct spec_new_a_bounds as [Hn1 Hn2].
  destruct spec_aoni_bounds as [Ha1 Ha2].
  set (an := spec_an alpha opacity) in *.
  unfold spec_channel, is_byte in *.
  assert (0 ≤ c * spec_aoni dst_a an + src_c * an) by nia.
  destruct (Z.eq_dec (spec_new_a dst_a an) 0) as [->|Hnz].
  - rewrite Z.div_0_r. lia.
  - split.
    + apply Z.div_pos; lia.
    + apply Z.div_le_upper_bound; [lia|]. nia.
Qed.
End BlendArithmetic.

Lemma byte_pixel_spec_blend alpha r g b opacity dst :
  is_byte alpha → is_byte r → is_byte g → is_byte b → is_byte opacity →
  byte_pixel dst → byte_pixel (spec_blend alpha r g b opacity dst).
Proof.
  intros Ha Hr Hg Hb Ho (H0 & H1 & H2 & H3).
  pose proof (spec_an_byte _ _ Ha Ho).
  pose proof (spec_new_a_bounds _ _ _ Ha Ho H3) as [? ?].
  unfold spec_blend, byte_pixel.
  destruct (d3 dst =? 0); simpl; [done|].
  destruct (spec_new_a (d3 dst) (spec_an alpha opacity) =? 0); simpl.
  - repeat split; try done; unfold is_byte in *; lia.
  - repeat split; try (apply spec_channel_byte; done); unfold is_byte in *; lia.
Qed.

(** On bytes no wrap and no truncation of [blend] ever bites: the code
    computes the unbounded formulas. *)
Lemma blend_spec_blend alpha r g b opacity dst :
  is_byte alpha → is_byte r → is_byte g → is_byte b → is_byte opacity →
  byte_pixel dst →
  blend alpha r g b opacity dst = spec_blend alpha r g b opacity dst.
Proof.
  intros Ha Hr Hg Hb Ho (H0 & H1 & H2 & H3).
  pose proof (spec_an_byte _ _ Ha Ho) as Han.
  pose proof (spec_new_a_bounds _ _ _ Ha Ho H3) as [Hn1 Hn2].
  pose proof (spec_aoni_bounds _ _ _ Ha Ho H3) as [Hq1 Hq2].
  assert (uint_div (uint_mul alpha opacity) 255 = spec_an alpha opacity) as Ean.
  { unfold uint_div, uint_mul, spec_an. rewrite to_unsigned_id; [done|].
    unfold is_byte in *. nia. }
  unfold blend, spec_blend. rewrite Ean.
  set (an := spec_an alpha opacity) in *.
  destruct (Z.eqb_spec (d3 dst) 0) as [Hz|Hnz].
  { by rewrite !to_uint8_id. }
  assert (uint_sub 255 an = 255 - an) as Eani.
  { unfold uint_sub. apply to_unsigned_id. unfold is_byte in *. lia. }
  rewrite Eani.
  assert (to_uint8 (uint_sub 255 (uint_div (uint_mul (uint_sub 255 (d3 dst)) (255 - an)) 255))
          = spec_new_a (d3 dst) an) as Enew.
  { unfold uint_sub, uint_div, uint_mul, spec_new_a.
    rewrite (to_unsigned_id (255 - d3 dst)) by (unfold is_byte in *; lia).
    rewrite (to_unsigned_id ((255 - d3 dst) * (255 - an)))
      by (unfold is_byte in *; nia).
    fold (spec_new_a (d3 dst) an).
    rewrite to_unsigned_id by (unfold is_byte in *; lia).
    apply to_uint8_id. unfold is_byte in *. lia. }
  rewrite Enew.
  destruct (Z.eqb_spec (spec_new_a (d3 dst) an) 0) as [Hz'|Hnz'].
  { by rewrite Hz'. }
  assert (uint_div (uint_mul (d3 dst) (255 - an)) 255 = spec_aoni (d3 dst) an) as Eaoni.
  { unfold uint_div, uint_mul, spec_aoni. rewrite to_unsigned_id; [done|].
    unfold is_byte in *. nia. }
  rewrite Eaoni.
  assert (∀ c src_c, is_byte c → is_byte src_c →
    to_uint8 (uint_div (uint_add (uint_mul c (spec_aoni (d3 dst) an)) (uint_mul src_c an))
                       (spec_new_a (d3 dst) an))
    = spec_channel c src_c (d3 dst) an) as Emix.
  { intros c src_c Hc Hs.
    pose proof (spec_channel_byte _ _ _ Ha Ho H3 c src_c Hc Hs) as Hch.
    unfold uint_div, uint_add, uint_mul.
    rewrite (to_unsigned_id (c * _)) by (unfold is_byte in *; nia).
    rewrite (to_unsigned_id (src_c * _)) by (unfold is_byte in *; nia).
    rewrite to_unsigned_id by (unfold is_byte in *; nia).
    by apply to_uint8_id. }
  by rewrite !Emix.
Qed.

(** The alpha byte after [blend] does not depend on the colour bytes. *)
Lemma blend_alpha alpha r g b opacity dst :
  is_byte alpha → is_byte opacity → is_byte (d3 dst) →
  d3 (blend alpha r g b opacity dst) =
    if d3 dst =? 0 then spec_an alpha opacity
    else spec_new_a (d3 dst) (spec_an alpha opacity).
Proof.
  intros Ha Ho H3.
  pose proof (spec_an_byte _ _ Ha Ho) as Han.
  pose proof (spec_new_a_bounds _ _ _ Ha Ho H3) as [Hn1 Hn2].
  assert (uint_div (uint_mul alpha opacity) 255 = spec_an alpha opacity) as Ean.
  { unfold uint_div, uint_mul, spec_an. rewrite to_unsigned_id; [done|].
    unfold is_byte in *. nia. }
  unfold blend. rewrite Ean.
  set (an := spec_an alpha opacity) in *.
  destruct (Z.eqb_spec (d3 dst) 0) as [Hz|Hnz]; simpl.
  { by apply to_uint8_id. }
  assert (to_uint8 (uint_sub 255 (uint_div (uint_mul (uint_sub 255 (d3 dst)) (uint_sub 255 an)) 255))
          = spec_new_a (d3 dst) an) as Enew.
  { unfold uint_sub, uint_div, uint_mul, spec_new_a.
    rewrite (to_unsigned_id (255 - an)) by (unfold is_byte in *; lia).
    rewrite (to_unsigned_id (255 - d3 dst)) by (unfold is_byte in *; lia).
    rewrite (to_unsigned_id ((255 - d3 dst) * (255 - an)))
      by (unfold is_byte in *; nia).
    fold (spec_new_a (d3 dst) an).
    rewrite to_unsigned_id by (unfold is_byte in *; lia).
    apply to_uint8_id. unfold is_byte in *. lia. }
  rewrite Enew.
  by destruct (spec_new_a (d3 dst) an =? 0).
Qed.

Lemma spec_an_full an : spec_an an 255 = an.
Proof. unfold spec_an. by rewrite Z.div_mul. Qed.

(** C5: on byte inputs every intermediate value of a blend step ([an],
    [new_a], [aoni]) and every resulting colour channel lies in 0..255, and
    the pixel the code stores, with its wrapping unsigned arithmetic and its
    truncating byte stores, is the pixel of the unbounded formulas: no store
    loses anything and nothing needs clamping. *)
Theorem C5_blend_stays_in_byte_range alpha r g b opacity dst :
  is_byte alpha → is_byte r → is_byte g → is_byte b → is_byte opacity →
  byte_pixel dst →
  is_byte (spec_an alpha opacity) ∧
  is_byte (spec_new_a (d3 dst) (spec_an alpha opacity)) ∧
  is_byte (spec_aoni (d3 dst) (spec_an alpha opacity)) ∧
  is_byte (spec_channel (d0 dst) r (d3 dst) (spec_an alpha opacity)) ∧
  is_byte (spec_channel (d1 dst) g (d3 dst) (spec_an alpha opacity)) ∧
  is_byte (spec_channel (d2 dst) b (d3 dst) (spec_an alpha opacity)) ∧
  blend alpha r g b opacity dst = spec_blend alpha r g b opacity dst ∧
  byte_pixel (blend alpha r g b opacity dst).
Proof.
  intros Ha Hr Hg Hb Ho Hdst.
  pose proof Hdst as (H0 & H1 & H2 & H3).
  pose proof (spec_an_byte _ _ Ha Ho) as Han.
  pose proof (spec_new_a_bounds _ _ _ Ha Ho H3) as [Hn1 Hn2].
  pose proof (spec_aoni_bounds _ _ _ Ha Ho H3) as [Hq1 Hq2].
  split; [done|].
  split; [unfold is_byte in *; lia|].
  split; [done|].
  do 3 (split; [by apply spec_channel_byte|]).
  split; [by apply blend_spec_blend|].
  rewrite blend_spec_blend by done. by apply byte_pixel_spec_blend.
Qed.

Lemma C5_blend_stays_in_byte_range_witness :
  blend 255 200 100 50 128 {| d0 := 10; d1 := 20; d2 := 30; d3 := 40 |}
  = spec_blend 255 200 100 50 128 {| d0 := 10; d1 := 20; d2 := 30; d3 := 40 |}.
Proof.
  apply (C5_blend_stays_in_byte_range 255 200 100 50 128
           {| d0 := 10; d1 := 20; d2 := 30; d3 := 40 |});
    unfold byte_pixel, is_byte; simpl; lia.
Defined.

(** C10: the alpha byte of a destination pixel never decreases in a blend
    step.  When it is nonzero, the new alpha
    [255 - (255 - dst.a) * (255 - an) / 255] is at least [dst.a] for every
    [an] in 0..255, hence nonzero: the branch of the code for a new alpha of
    zero is never taken for such a pixel. *)
Theorem C10_alpha_never_decreases alpha r g b opacity dst :
  is_byte alpha → is_byte opacity → is_byte (d3 dst) →
  d3 dst ≤ d3 (blend alpha r g b opacity dst) ∧
  (d3 dst ≠ 0 →
     (∀ an, is_byte an →
        d3 dst ≤ spec_new_a (d3 dst) an ∧ spec_new_a (d3 dst) an ≠ 0) ∧
     d3 (blend alpha r g b opacity dst)
       = spec_new_a (d3 dst) (spec_an alpha opacity) ∧
     d3 (blend alpha r g b opacity dst) ≠ 0).
Proof.
  intros Ha Ho H3.
  pose proof (spec_an_byte _ _ Ha Ho) as Han.
  pose proof (spec_new_a_bounds _ _ _ Ha Ho H3) as [[Hn1 _] _].
  rewrite blend_alpha by done.
  split.
  - destruct (Z.eqb_spec (d3 dst) 0) as [->|]; [|done].
    unfold is_byte in Han. lia.
  - intros Hnz. destruct (Z.eqb_spec (d3 dst) 0) as [|_]; [done|].
    split; [|split; [done|unfold is_byte in *; lia]].
    intros an Hbyte.
    assert (is_byte 255) as H255 by (unfold is_byte; lia).
    pose proof (spec_new_a_bounds an 255 (d3 dst) Hbyte H255 H3) as [[Hge _] _].
    rewrite spec_an_full in Hge. unfold is_byte in *. lia.
Qed.

Lemma C10_alpha_never_decreases_witness :
  40 ≤ d3 (blend 255 200 100 50 128 {| d0 := 10; d1 := 20; d2 := 30; d3 := 40 |}).
Proof.
  apply (C10_alpha_never_decreases 255 200 100 50 128
           {| d0 := 10; d1 := 20; d2 := 30; d3 := 40 |});
    unfold is_byte; simpl; lia.
Defined.

(** ** The rasterizer *)

Lemma load_store_same m i v :
  0 ≤ i < Z.of_nat (length m) → load (store m i v) i = v.
Proof.
  intros Hi. unfold load, store.
  destruct (Z.ltb_spec i 0); [lia|].
  rewrite list_lookup_insert_eq; [done|lia].
Qed.

Lemma load_store_other m i j v : i ≠ j → load (store m i v) j = load m j.
Proof.
  intros Hne. unfold load, store.
  destruct (Z.ltb_spec j 0); [done|].
  destruct (Z.ltb_spec i 0); [done|].
  rewrite list_lookup_insert_ne; [done|lia].
Qed.

Lemma length_store m i v : length (store m i v) = length m.
Proof. unfold store. destruct (i <? 0); [done|]. apply length_insert. Qed.

(** A pixel written inside the buffer is read back as written. *)
Lemma get_set_pixel m off px :
  0 ≤ off → off + 3 < Z.of_nat (length m) → get_pixel (set_pixel m off px) off = px.
Proof.
  intros H0 H3. destruct px as [a0 a1 a2 a3].
  unfold get_pixel, set_pixel. simpl. f_equal.
  - rewrite !load_store_other by lia. apply load_store_same. lia.
  - rewrite !load_store_other by lia. apply load_store_same.
    rewrite length_store. lia.
  - rewrite !load_store_other by lia. apply load_store_same.
    rewrite !length_store. lia.
  - apply load_store_same. rewrite !length_store. lia.
Qed.

(** A fragment that [draw_image] leaves alone can be dropped from the list. *)
Lemma RegionDraw_pixels_skip p_region p_img before after :
  (∀ m, draw_image p_region m p_img = m) →
  RegionDraw_pixels p_region (before ++ p_img :: after)
  = RegionDraw_pixels p_region (before ++ after).
Proof.
  intros Hskip. unfold RegionDraw_pixels.
  rewrite !foldl_app. simpl. by rewrite Hskip.
Qed.

Lemma blend_transparent alpha r g b opacity dst :
  is_byte alpha → is_byte r → is_byte g → is_byte b → is_byte opacity →
  d3 dst = 0 →
  blend alpha r g b opacity dst
  = {| d0 := r; d1 := g; d2 := b; d3 := spec_an alpha opacity |}.
Proof.
  intros Ha Hr Hg Hb Ho Hz.
  pose proof (spec_an_byte _ _ Ha Ho) as Han.
  unfold blend. rewrite Hz. simpl.
  rewrite !to_uint8_id; try done.
  - unfold uint_div, uint_mul, spec_an. rewrite to_unsigned_id; [done|].
    unfold is_byte in *. nia.
  - unfold uint_div, uint_mul. rewrite to_unsigned_id; [done|].
    unfold is_byte in *. nia.
Qed.

(** C8: a sample of nonzero opacity that meets a destination pixel of alpha 0
    is written directly as [(r, g, b, an)] with [an = alpha * opacity / 255],
    and the pixel reads back so when it lies inside the buffer.  Scenario A:
    on the zeroed picture the fragment gives pixel (0,0) = (200,100,50,255)
    and pixel (1,0) = (200,100,50,128). *)
Theorem C8_direct_write_on_transparent alpha r g b src src_off dst_off m (x : nat) :
  is_byte alpha → is_byte r → is_byte g → is_byte b →
  is_byte (load src (src_off + Z.of_nat x)) →
  load src (src_off + Z.of_nat x) ≠ 0 →
  load m (dst_off + 4 * Z.of_nat x + 3) = 0 →
  let an := spec_an alpha (load src (src_off + Z.of_nat x)) in
  let off := dst_off + 4 * Z.of_nat x in
  draw_sample alpha r g b src src_off dst_off m x
    = set_pixel m off {| d0 := r; d1 := g; d2 := b; d3 := an |} ∧
  (0 ≤ off → off + 3 < Z.of_nat (length m) →
   get_pixel (draw_sample alpha r g b src src_off dst_off m x) off
     = {| d0 := r; d1 := g; d2 := b; d3 := an |}) ∧
  RegionDraw_pixels scenario_A_region [scenario_A_fragment]
    = [200; 100; 50; 255; 200; 100; 50; 128].
Proof.
  intros Ha Hr Hg Hb Ho Hnz Hzero an off. subst an off.
  assert (draw_sample alpha r g b src src_off dst_off m x
          = set_pixel m (dst_off + 4 * Z.of_nat x)
              {| d0 := r; d1 := g; d2 := b;
                 d3 := spec_an alpha (load src (src_off + Z.of_nat x)) |}) as Hdraw.
  { unfold draw_sample.
    destruct (Z.eqb_spec (load src (src_off + Z.of_nat x)) 0) as [|_]; [done|].
    by rewrite blend_transparent. }
  split; [done|]. split.
  - intros H0 H3. rewrite Hdraw. by apply get_set_pixel.
  - by vm_compute.
Qed.

Lemma C8_direct_write_on_transparent_witness :
  draw_sample 255 200 100 50 [255; 128] 0 0 (replicate 8 0) 1
  = set_pixel (replicate 8 0) 4 {| d0 := 200; d1 := 100; d2 := 50; d3 := 128 |}.
Proof.
  refine (proj1 (C8_direct_write_on_transparent 255 200 100 50 [255; 128] 0 0
                   (replicate 8 0) 1 _ _ _ _ _ _ _));
    first [ unfold is_byte; simpl; lia | vm_compute; done | vm_compute; split; done ].
Defined.

Lemma lnot32_low_byte c : Z.land c 0xff = 0xff → Z.land (Z.lxor c 0xffffffff) 0xff = 0.
Proof.
  intros Hc. apply Z.bits_inj'. intros n Hn.
  rewrite Z.land_spec, Z.lxor_spec, Z.bits_0.
  assert (Z.testbit (Z.land c 0xff) n = Z.testbit 0xff n) as Hb by (by rewrite Hc).
  rewrite Z.land_spec in Hb.
  destruct (Z.testbit 0xff n) eqn:Elow; [|by rewrite andb_false_r].
  rewrite andb_true_r in Hb. rewrite Hb, andb_true_r.
  assert (n < 8) as Hn8.
  { destruct (Z.lt_ge_cases n 8) as [|Hge]; [done|].
    change 0xff with (Z.ones 8) in Elow.
    rewrite Z.ones_spec_high in Elow by lia. done. }
  change 0xffffffff with (Z.ones 32).
  rewrite Z.ones_spec_low by lia. done.
Qed.

(** C9: a fragment whose packed colour carries the inverted-alpha byte 0xFF
    decodes to alpha 0, is skipped as a whole and leaves the buffer as it
    was; the picture drawn with it equals the picture drawn without it. *)
Theorem C9_zero_alpha_fragment_is_skipped p_region m p_img :
  Z.land (color p_img) 0xff = 0xff →
  Z.land (Z.lxor (color p_img) 0xffffffff) 0xff = 0 ∧
  draw_image p_region m p_img = m ∧
  ∀ before after,
    RegionDraw_pixels p_region (before ++ p_img :: after)
    = RegionDraw_pixels p_region (before ++ after).
Proof.
  intros Hc. pose proof (lnot32_low_byte _ Hc) as Ha.
  assert (∀ m', draw_image p_region m' p_img = m') as Hskip.
  { intros m'. unfold draw_image. rewrite Ha.
    by destruct (_ || _). }
  split; [done|]. split; [done|].
  intros before after. by apply RegionDraw_pixels_skip.
Qed.

Lemma C9_zero_alpha_fragment_is_skipped_witness :
  draw_image scenario_A_region [1; 2; 3; 4; 5; 6; 7; 8]
    {| w := 2; h := 1; stride := 2; bitmap := [255; 128];
       color := 0xc86432ff; dst_x := 0; dst_y := 0 |}
  = [1; 2; 3; 4; 5; 6; 7; 8].
Proof.
  apply (C9_zero_alpha_fragment_is_skipped scenario_A_region [1; 2; 3; 4; 5; 6; 7; 8]
           {| w := 2; h := 1; stride := 2; bitmap := [255; 128];
              color := 0xc86432ff; dst_x := 0; dst_y := 0 |}).
  reflexivity.
Defined.

(** The bounds test on the offsets as the machine computes them: when it
    fires the fragment is passed over, whatever the coordinates. *)
Lemma draw_image_outside p_region m p_img :
  int_sub (dst_x p_img) (i_x p_region) < 0 ∨
  to_int (i_width (format (p_picture p_region)))
    < int_add (int_sub (dst_x p_img) (i_x p_region)) (w p_img) ∨
  int_sub (dst_y p_img) (i_y p_region) < 0 ∨
  to_int (i_height (format (p_picture p_region)))
    < int_add (int_sub (dst_y p_img) (i_y p_region)) (h p_img) →
  draw_image p_region m p_img = m.
Proof.
  intros Hout. unfold draw_image.
  destruct (Z.ltb_spec (int_sub (dst_x p_img) (i_x p_region)) 0); [done|].
  destruct (Z.ltb_spec (to_int (i_width (format (p_picture p_region))))
              (int_add (int_sub (dst_x p_img) (i_x p_region)) (w p_img))); [done|].
  destruct (Z.ltb_spec (int_sub (dst_y p_img) (i_y p_region)) 0); [done|].
  destruct (Z.ltb_spec (to_int (i_height (format (p_picture p_region))))
              (int_add (int_sub (dst_y p_img) (i_y p_region)) (h p_img))); [done|].
  lia.
Qed.

(** C7: a fragment whose rectangle does not lie entirely inside the picture
    of the region (negative offset on an axis, or an extent beyond the width
    or the height) is skipped as a whole: the buffer is left as it was, no
    part of the fragment is drawn. *)
Theorem C7_fragment_outside_is_skipped p_region m p_img :
  draw_in_range p_region p_img →
  ¬ fits_inside p_region p_img →
  draw_image p_region m p_img = m ∧
  ∀ before after,
    RegionDraw_pixels p_region (before ++ p_img :: after)
    = RegionDraw_pixels p_region (before ++ after).
Proof.
  intros Hrange Hout.
  assert (∀ m', draw_image p_region m' p_img = m') as Hskip.
  { intros m'. apply draw_image_outside.
    unfold draw_in_range, draw_limit, INT_MAX in Hrange.
    unfold fits_inside in Hout.
    unfold int_sub, int_add.
    rewrite (to_int_id (i_width _)) by (unfold INT_MIN, INT_MAX; lia).
    rewrite (to_int_id (i_height _)) by (unfold INT_MIN, INT_MAX; lia).
    rewrite (to_int_id (dst_x p_img - i_x p_region)) by (unfold INT_MIN, INT_MAX; lia).
    rewrite (to_int_id (dst_y p_img - i_y p_region)) by (unfold INT_MIN, INT_MAX; lia).
    rewrite !(to_int_id (_ + _)) by (unfold INT_MIN, INT_MAX; lia).
    lia. }
  split; [done|].
  intros before after. by apply RegionDraw_pixels_skip.
Qed.

Lemma C7_fragment_outside_is_skipped_witness :
  draw_image scenario_A_region (replicate 8 0) (fragment_at 1 0 2 1) = replicate 8 0.
Proof.
  apply (C7_fragment_outside_is_skipped scenario_A_region (replicate 8 0)
           (fragment_at 1 0 2 1)).
  - unfold draw_in_range, draw_limit, INT_MAX. simpl. lia.
  - unfold fits_inside. simpl. lia.
Defined.

(** ** The change-detection shortcut *)

(** C6: when the renderer reports no change, the visible source size and the
    destination format are as at the previous update, and fragments are
    present exactly when the previous output has regions, the update returns
    at once: the subpicture, and with it the list of regions produced
    before, is handed back as it was. *)
Theorem C6_unchanged_frame_is_skipped (E : externals) (p_renderer : ASS_Renderer E)
    (i_pts : Z) (p_subpic : subpicture_t) (cfg : vlc_spu_updater_configuration) :
  let rendered :=
    ass_render_frame E p_renderer
      (MS_FROM_VLC_TICK E (i_pts + (pts cfg - i_start p_subpic))) in
  rendered.2 = 0 →
  i_visible_width (video_src cfg) = i_visible_width (prev_src cfg) →
  i_visible_height (video_src cfg) = i_visible_height (prev_src cfg) →
  video_format_IsSimilar E (prev_dst cfg) (video_dst cfg) = true →
  (rendered.1.2 = [] ↔ regions p_subpic = []) →
  SubpictureUpdate E p_renderer i_pts p_subpic cfg = Some (rendered.1.1, p_subpic).
Proof.
  intros rendered Hchanged Hw Hh Hdst Hpresence. subst rendered.
  unfold SubpictureUpdate.
  rewrite Hw, Hh, Hdst, !Z.eqb_refl. simpl.
  destruct (ass_render_frame E p_renderer _) as [[rd2 p_img] i_changed].
  simpl in *. subst i_changed. simpl.
  destruct (decide (p_img = [])) as [Himg|Himg].
  - rewrite bool_decide_eq_true_2 by done.
    rewrite bool_decide_eq_true_2 by (by apply Hpresence). done.
  - rewrite bool_decide_eq_false_2 by done.
    rewrite bool_decide_eq_false_2 by (by rewrite <- Hpresence). done.
Qed.

Lemma C6_unchanged_frame_is_skipped_witness :
  SubpictureUpdate still_externals () 0 sample_subpicture sample_cfg
  = Some ((), sample_subpicture).
Proof.
  apply (C6_unchanged_frame_is_skipped still_externals () 0 sample_subpicture sample_cfg);
    try reflexivity.
  simpl. split; discriminate.
Defined.

(** ** The mergeability test *)

Lemma ceil_div_nonneg n d :
  0 ≤ n → 0 < d → is_ceil n d ((n + (d - 1)) `quot` d).
Proof.
  intros Hn Hd. rewrite Z.quot_div_nonneg by lia.
  pose proof (Z.div_mod (n + (d - 1)) d). pose proof (Z.mod_pos_bound (n + (d - 1)) d).
  unfold is_ceil. nia.
Qed.

Lemma i_w_inc_ceil W :
  0 ≤ W ≤ INT_MAX - 49 → ∃ cw, is_ceil W 50 cw ∧ i_w_inc W = Z.max cw 32.
Proof.
  intros HW. exists ((W + 49) `quot` 50). split.
  - apply (ceil_div_nonneg W 50); lia.
  - unfold i_w_inc, int_div, int_add. rewrite MAX_max.
    rewrite (to_int_id (W + 49)) by (unfold INT_MIN, INT_MAX in *; lia).
    rewrite to_int_id; [done|].
    rewrite Z.quot_div_nonneg by lia.
    pose proof (Z.div_mod (W + 49) 50). pose proof (Z.mod_pos_bound (W + 49) 50).
    unfold INT_MIN, INT_MAX in *. lia.
Qed.

Lemma i_h_inc_ceil H :
  0 ≤ H ≤ INT_MAX - 99 → ∃ ch, is_ceil H 100 ch ∧ i_h_inc H = Z.max ch 32.
Proof.
  intros HH. exists ((H + 99) `quot` 100). split.
  - apply (ceil_div_nonneg H 100); lia.
  - unfold i_h_inc, int_div, int_add. rewrite MAX_max.
    rewrite (to_int_id (H + 99)) by (unfold INT_MIN, INT_MAX in *; lia).
    rewrite to_int_id; [done|].
    rewrite Z.quot_div_nonneg by lia.
    pose proof (Z.div_mod (H + 99) 100). pose proof (Z.mod_pos_bound (H + 99) 100).
    unfold INT_MIN, INT_MAX in *. lia.
Qed.

(** Without wrap, [r_overlap] grows its first argument only. *)
Lemma r_overlap_expand a b i_dx i_dy :
  INT_MIN ≤ x0 a - i_dx → x1 a + i_dx ≤ INT_MAX →
  INT_MIN ≤ y0 a - i_dy → y1 a + i_dy ≤ INT_MAX →
  x0 a ≤ x1 a → y0 a ≤ y1 a → 0 ≤ i_dx → 0 ≤ i_dy →
  r_overlap a b i_dx i_dy = true ↔ strict_overlap (expand a i_dx i_dy) b.
Proof.
  intros. unfold r_overlap, strict_overlap, expand, int_sub, int_add. simpl.
  rewrite !to_int_id by (unfold INT_MIN, INT_MAX in *; lia).
  rewrite !MAX_max, !MIN_min, andb_true_iff, !Z.ltb_lt. done.
Qed.

(** The tolerance computed from the width is the one passed for the y axis,
    the one computed from the height is passed for the x axis. *)
Lemma mergeable_tolerances W H rg r :
  mergeable W H rg r = r_overlap rg r (i_h_inc H) (i_w_inc W).
Proof. reflexivity. Qed.

(** On a 3200x100 canvas the width asks for 64 pixels and the height for 32:
    a fragment 50 pixels to the right of a region is not merged, one 50
    pixels below is. *)
Lemma mergeable_axes_example :
  i_w_inc 3200 = 64 ∧ i_h_inc 100 = 32 ∧
  mergeable 3200 100 (r_create 0 0 10 10) (r_create 60 0 70 10) = false ∧
  mergeable 3200 100 (r_create 0 0 10 10) (r_create 0 60 10 70) = true.
Proof. by vm_compute. Qed.

(** The claim C2 as worded fails: on a 1000x1000 canvas both tolerances are
    32, the boxes (0,0)-(10,10) and (50,0)-(60,10) overlap once both are
    expanded by 32, and the partitioner does not hold them mergeable. *)
Lemma C2_both_expanded_counterexample :
  ¬ (mergeable 1000 1000 near_region near_fragment = true
     ↔ spec_mergeable 1000 1000 near_region near_fragment).
Proof.
  intros [_ Hspec].
  assert (mergeable 1000 1000 near_region near_fragment = false) as Hcode
    by (by vm_compute).
  rewrite Hspec in Hcode; [done|].
  exists 20, 10. unfold is_ceil, strict_overlap, expand. simpl. lia.
Qed.

(** C2, amended: the two tolerances are [max(ceil(W/50), 32)] and
    [max(ceil(H/100), 32)]; given tolerances [i_dx] and [i_dy], the test
    holds exactly when the first rectangle (the region), expanded outward by
    [i_dx] on the x axis and [i_dy] on the y axis, overlaps the second (the
    fragment, not expanded) with strict inequality on both axes. *)
Theorem C2_region_expanded_overlap (W H : Z) (a b : rectangle_t) (i_dx i_dy : Z) :
  0 ≤ W ≤ INT_MAX - 49 → 0 ≤ H ≤ INT_MAX - 99 →
  INT_MIN ≤ x0 a - i_dx → x1 a + i_dx ≤ INT_MAX →
  INT_MIN ≤ y0 a - i_dy → y1 a + i_dy ≤ INT_MAX →
  x0 a ≤ x1 a → y0 a ≤ y1 a → 0 ≤ i_dx → 0 ≤ i_dy →
  (∃ cw, is_ceil W 50 cw ∧ i_w_inc W = Z.max cw 32) ∧
  (∃ ch, is_ceil H 100 ch ∧ i_h_inc H = Z.max ch 32) ∧
  (r_overlap a b i_dx i_dy = true ↔ strict_overlap (expand a i_dx i_dy) b) ∧
  (x1 a + i_dx = x0 b → r_overlap a b i_dx i_dy = false).
Proof.
  intros HW HH Hx0 Hx1 Hy0 Hy1 Hax Hay Hdx Hdy.
  split; [by apply i_w_inc_ceil|].
  split; [by apply i_h_inc_ceil|].
  pose proof (r_overlap_expand a b i_dx i_dy Hx0 Hx1 Hy0 Hy1 Hax Hay Hdx Hdy) as Hiff.
  split; [done|].
  intros Htouch. apply not_true_is_false. rewrite Hiff.
  unfold strict_overlap, expand. simpl. lia.
Qed.

Lemma C2_region_expanded_overlap_witness :
  r_overlap near_region near_fragment 32 32 = true
  ↔ strict_overlap (expand near_region 32 32) near_fragment.
Proof.
  apply (C2_region_expanded_overlap 1000 1000 near_region near_fragment 32 32);
    unfold INT_MIN, INT_MAX; simpl; lia.
Defined.

(** ** Rectangles *)

Lemma contains_refl rg : contains rg rg.
Proof. unfold contains. lia. Qed.

Lemma contains_trans a b c : contains a b → contains b c → contains a c.
Proof. unfold contains. lia. Qed.

Lemma contains_r_add_l a b : contains (r_add a b) a.
Proof. unfold contains, r_add. simpl. rewrite !MIN_min, !MAX_max. lia. Qed.

Lemma contains_r_add_r a b : contains (r_add a b) b.
Proof. unfold contains, r_add. simpl. rewrite !MIN_min, !MAX_max. lia. Qed.

Lemma well_bounded_r_add a b : well_bounded a → well_bounded b → well_bounded (r_add a b).
Proof. unfold well_bounded, r_add. simpl. rewrite !MIN_min, !MAX_max. lia. Qed.

Lemma r_img_in_canvas f :
  in_canvas f → positive_size f = true →
  r_img f = bounding_box f ∧ well_bounded (r_img f).
Proof.
  unfold in_canvas, positive_size, coord_limit. intros Hc Hp.
  apply andb_true_iff in Hp as [Hw Hh]. apply Z.ltb_lt in Hw, Hh.
  assert (r_img f = bounding_box f) as ->.
  { unfold r_img, r_create, bounding_box, int_add.
    rewrite !to_int_id by (unfold INT_MIN, INT_MAX; lia). done. }
  split; [done|]. unfold well_bounded, bounding_box, coord_limit. simpl. lia.
Qed.

Lemma r_surface_well_bounded rg :
  well_bounded rg →
  r_surface rg = (x1 rg - x0 rg) * (y1 rg - y0 rg) ∧ 0 ≤ r_surface rg ≤ 1073741824.
Proof.
  unfold well_bounded, coord_limit. intros Hb.
  assert (r_surface rg = (x1 rg - x0 rg) * (y1 rg - y0 rg)) as ->.
  { unfold r_surface, int_mul, int_sub.
    rewrite (to_int_id (x1 rg - x0 rg)) by (unfold INT_MIN, INT_MAX; lia).
    rewrite (to_int_id (y1 rg - y0 rg)) by (unfold INT_MIN, INT_MAX; lia).
    apply to_int_id. unfold INT_MIN, INT_MAX. nia. }
  split; [done|]. nia.
Qed.

(** Inside the square the area increase of a pair is exact and below
    [INT_MAX]. *)
Lemma merge_cost_well_bounded a b :
  well_bounded a → well_bounded b →
  merge_cost a b = r_surface (r_add a b) - r_surface a - r_surface b ∧
  merge_cost a b < INT_MAX.
Proof.
  intros Ha Hb.
  pose proof (r_surface_well_bounded _ (well_bounded_r_add _ _ Ha Hb)) as [_ Hu].
  pose proof (r_surface_well_bounded _ Ha) as [_ Hsa].
  pose proof (r_surface_well_bounded _ Hb) as [_ Hsb].
  assert (merge_cost a b = r_surface (r_add a b) - r_surface a - r_surface b) as ->.
  { unfold merge_cost, int_sub.
    rewrite (to_int_id (_ - r_surface a)) by (unfold INT_MIN, INT_MAX; lia).
    apply to_int_id. unfold INT_MIN, INT_MAX. lia. }
  split; [done|]. unfold INT_MAX. lia.
Qed.

(** ** Bookkeeping of the fragment array *)

Lemma foldl_invariant {A B} (P : A → Prop) (f : A → B → A) (l : list B) (a : A) :
  P a → (∀ a' b, b ∈ l → P a' → P (f a' b)) → P (foldl f a l).
Proof.
  revert a. induction l as [|b l IH]; intros a Ha Hstep; simpl; [done|].
  apply IH.
  - apply Hstep; [left|done].
  - intros a' b' Hin. apply Hstep. by right.
Qed.

Lemma unassigned_le_length pp : (unassigned pp ≤ length pp)%nat.
Proof. induction pp as [|[f|] pp IH]; simpl; lia. Qed.

Lemma unassigned_insert_None pp n f :
  pp !! n = Some (Some f) → S (unassigned (<[n := None]> pp)) = unassigned pp.
Proof.
  revert n. induction pp as [|o pp IH]; intros [|n] Hn; simpl in *; try done.
  - by simplify_eq.
  - destruct o; simpl; rewrite <- (IH n Hn); done.
Qed.

Lemma unassigned_zero pp n f : unassigned pp = 0%nat → pp !! n ≠ Some (Some f).
Proof.
  revert n. induction pp as [|o pp IH]; intros [|n] Hz Hn; simpl in *; try done.
  - by simplify_eq.
  - destruct o; [done|]. by eapply IH.
Qed.

Lemma first_unassigned_Some pp n f :
  first_unassigned pp = Some (n, f) → pp !! n = Some (Some f).
Proof.
  revert n. induction pp as [|o pp IH]; intros n Hf; simpl in *; [done|].
  destruct o as [g|].
  - by simplify_eq.
  - destruct (first_unassigned pp) as [[m g]|] eqn:E; [|done].
    simplify_eq. simpl. by apply IH.
Qed.

Lemma first_unassigned_None pp : first_unassigned pp = None → unassigned pp = 0%nat.
Proof.
  induction pp as [|o pp IH]; simpl; [done|].
  destruct o as [g|]; [done|].
  destruct (first_unassigned pp) as [[m g]|]; [done|]. auto.
Qed.

(** The index chosen by the loop over [k] is [-1] or a valid slot. *)
Lemma find_best_range regs r maxw maxh :
  find_best regs r maxw maxh = -1 ∨
  0 ≤ find_best regs r maxw maxh < Z.of_nat (length regs).
Proof.
  unfold find_best.
  apply (foldl_invariant (λ acc : Z * Z, acc.1 = -1 ∨ 0 ≤ acc.1 < Z.of_nat (length regs))).
  - by left.
  - intros acc k _ Hacc. unfold find_best_step.
    destruct (regs !! k) as [rk|] eqn:Hk; [|done].
    destruct (r_overlap rk r maxw maxh); [|done].
    destruct (r_surface r <? acc.2); [|done].
    right. simpl. apply lookup_lt_Some in Hk. lia.
Qed.

(** ** Coverage is kept by every update of the region array *)

Lemma covers_alter regs i r : covers (alter (λ rg, r_add rg r) i regs) regs.
Proof.
  intros rg Hrg. apply list_elem_of_lookup in Hrg as [k Hk].
  destruct (decide (i = k)) as [->|Hne].
  - exists (r_add rg r). split; [|apply contains_r_add_l].
    apply (list_elem_of_lookup_2 _ k). by rewrite list_lookup_alter_eq, Hk.
  - exists rg. split; [|apply contains_refl].
    apply (list_elem_of_lookup_2 _ k). by rewrite list_lookup_alter_ne.
Qed.

(** ** The invariant through seeding and growing *)

Section Growth.
Variable kept : list ASS_Image.
Hypothesis Hkept : Forall (λ f, positive_size f = true ∧ in_canvas f) kept.
Variables maxw maxh : Z.

Lemma slot_in_kept st n f :
  build_inv kept st → pp_img st !! n = Some (Some f) → kept !! n = Some f.
Proof.
  intros Hinv Hn.
  assert (is_Some (kept !! n)) as [g Hg].
  { apply lookup_lt_is_Some. rewrite <- (inv_length _ _ Hinv).
    by eapply lookup_lt_Some. }
  destruct (inv_slots _ _ Hinv n g Hg) as [Hs|[Hs _]]; by simplify_eq.
Qed.

Lemma kept_well_bounded n f : kept !! n = Some f → well_bounded (r_img f).
Proof.
  intros Hn. destruct (Forall_lookup_1 _ _ _ _ Hkept Hn) as [Hp Hc].
  by apply r_img_in_canvas.
Qed.

Lemma build_inv_b_ok st b :
  build_inv kept st →
  build_inv kept {| pp_img := pp_img st; region := region st;
                    i_used := i_used st; b_ok := b |}.
Proof. intros [? ? ? ?]. by constructor. Qed.

(** Seeding a region from the first unassigned fragment. *)
Lemma seed_inv st n f :
  build_inv kept st → first_unassigned (pp_img st) = Some (n, f) →
  let st1 := {| pp_img := <[n := None]> (pp_img st);
                region := region st ++ [r_img f];
                i_used := i_used st + 1; b_ok := b_ok st |} in
  build_inv kept st1 ∧ S (unassigned (pp_img st1)) = unassigned (pp_img st).
Proof.
  intros Hinv Hfirst. apply first_unassigned_Some in Hfirst.
  pose proof (slot_in_kept _ _ _ Hinv Hfirst) as Hn.
  pose proof (unassigned_insert_None _ _ _ Hfirst) as Hun.
  simpl. split; [|done]. constructor; simpl.
  - rewrite length_insert. apply Hinv.
  - rewrite (inv_used _ _ Hinv). lia.
  - intros m g Hm. destruct (decide (m = n)) as [->|Hne].
    + right. assert (g = f) as -> by congruence. split.
      * apply list_lookup_insert_eq. by eapply lookup_lt_Some.
      * exists (r_img f). split; [|apply contains_refl].
        apply elem_of_app. right. by apply list_elem_of_singleton.
    + rewrite list_lookup_insert_ne by done.
      destruct (inv_slots _ _ Hinv m g Hm) as [Hs|[Hs (rg & Hrg & Hc)]]; [by left|].
      right. split; [done|]. exists rg. split; [|done].
      apply elem_of_app. by left.
  - apply Forall_app. split; [apply Hinv|].
    apply Forall_singleton. by eapply kept_well_bounded.
Qed.

Lemma scan_step_keeps r0 u0 st n :
  scan_keeps kept r0 u0 st → scan_keeps kept r0 u0 (scan_step maxw maxh st n).
Proof.
  intros (Hinv & Hlen & Hbudget). unfold scan_step.
  destruct (pp_img st !! n) as [[f|]|] eqn:Hn; [|done..].
  destruct (Z.leb_spec 0 (find_best (region st) (r_img f) maxw maxh)) as [Hbest|];
    [|done].
  destruct (find_best_range (region st) (r_img f) maxw maxh) as [|Hrange]; [lia|].
  set (i := Z.to_nat (find_best (region st) (r_img f) maxw maxh)).
  assert (is_Some (region st !! i)) as [rgi Hi].
  { apply lookup_lt_is_Some. unfold i. lia. }
  pose proof (slot_in_kept _ _ _ Hinv Hn) as Hkn.
  pose proof (unassigned_insert_None _ _ _ Hn) as Hun.
  split; [|split]; simpl.
  - constructor; simpl.
    + rewrite length_insert. apply Hinv.
    + rewrite (inv_used _ _ Hinv). lia.
    + intros m g Hm. destruct (decide (m = n)) as [->|Hne].
      * right. assert (g = f) as -> by congruence. split.
        -- apply list_lookup_insert_eq. by eapply lookup_lt_Some.
        -- exists (r_add rgi (r_img f)). split; [|apply contains_r_add_r].
           apply (list_elem_of_lookup_2 _ i).
           by rewrite list_lookup_alter_eq, Hi.
      * rewrite list_lookup_insert_ne by done.
        destruct (inv_slots _ _ Hinv m g Hm) as [Hs|[Hs (rg & Hrg & Hc)]]; [by left|].
        right. split; [done|].
        destruct (covers_alter (region st) i (r_img f) rg Hrg) as (rg' & Hrg' & Hc').
        exists rg'. split; [done|]. by eapply contains_trans.
    + apply Forall_alter; [apply Hinv|].
      intros rg _ Hrg. apply well_bounded_r_add; [done|].
      by eapply kept_well_bounded.
  - by rewrite length_alter.
  - destruct (b_ok st); lia.
Qed.

Lemma scan_keeps_all i_count st :
  build_inv kept st →
  let st' := scan maxw maxh i_count st in
  build_inv kept st' ∧ length (region st') = length (region st) ∧
  (unassigned (pp_img st') + (if b_ok st' then 1 else 0)
   ≤ unassigned (pp_img st))%nat.
Proof.
  intros Hinv. unfold scan.
  apply (foldl_invariant (scan_keeps kept (length (region st)) (unassigned (pp_img st)))).
  - split; [by apply build_inv_b_ok|]. simpl. split; [done|lia].
  - intros st0 n _. apply scan_step_keeps.
Qed.

(** The do-while comes to an end within its budget. *)
Lemma grow_terminates fuel i_count st :
  build_inv kept st → (unassigned (pp_img st) < fuel)%nat →
  ∃ st', grow fuel maxw maxh i_count st = Some st' ∧
         build_inv kept st' ∧ length (region st') = length (region st) ∧
         (unassigned (pp_img st') ≤ unassigned (pp_img st))%nat.
Proof.
  revert st. induction fuel as [|fuel IH]; intros st Hinv Hfuel; [lia|].
  simpl.
  destruct (scan_keeps_all i_count st Hinv) as (Hinv' & Hlen' & Hbudget).
  destruct (b_ok (scan maxw maxh i_count st)) eqn:Hok.
  - destruct (IH (scan maxw maxh i_count st) Hinv') as (st' & Hg & Hi & Hl & Hu); [lia|].
    exists st'. split; [done|]. split; [done|]. split; lia.
  - eexists. split; [done|]. split; [done|]. split; [done|]. lia.
Qed.
End Growth.

(** ** The collapse of the cheapest pair *)

Lemma cost_at_le_max regs a b : cost_at regs a b ≤ INT_MAX.
Proof.
  unfold cost_at. destruct (regs !! a); [|done]. destruct (regs !! b); [|done].
  unfold merge_cost, int_sub. apply to_int_range.
Qed.

Lemma merge_step_cost regs i j acc :
  is_Some (regs !! i) → is_Some (regs !! j) →
  merge_step regs i acc j =
    if cost_at regs i j <? i_best_ds acc
    then {| i_best_i := Z.of_nat i; i_best_j := Z.of_nat j; i_best_ds := cost_at regs i j |}
    else acc.
Proof. intros [ri Hi] [rj Hj]. unfold merge_step, cost_at. by rewrite Hi, Hj. Qed.

Lemma first_min_ext regs (seen seen' : nat → nat → Prop) acc :
  (∀ a b, seen a b ↔ seen' a b) → first_min regs seen acc → first_min regs seen' acc.
Proof.
  intros Hext [[-> Hall]|(i & j & -> & Hseen & Hlt & Hmin)].
  - left. split; [done|]. intros a b Hab. apply Hall. by apply Hext.
  - right. exists i, j. split; [done|]. split; [by apply Hext|]. split; [done|].
    intros a b Hab. apply Hmin. by apply Hext.
Qed.

(** Visiting one more pair, later in the order than all visited ones. *)
Lemma first_min_step regs (seen : nat → nat → Prop) acc i j :
  first_min regs seen acc →
  is_Some (regs !! i) → is_Some (regs !! j) →
  (∀ a b, seen a b → lex_lt a b i j) →
  first_min regs (λ a b, seen a b ∨ (a = i ∧ b = j)) (merge_step regs i acc j).
Proof.
  intros Hacc Hi Hj Hlater. rewrite merge_step_cost by done.
  pose proof (cost_at_le_max regs i j) as Hle.
  destruct Hacc as [[-> Hall]|(i0 & j0 & -> & Hseen & Hlt & Hmin)]; simpl.
  - destruct (Z.ltb_spec (cost_at regs i j) INT_MAX) as [Hc|Hc].
    + right. exists i, j. split; [done|]. split; [by right|]. split; [done|].
      intros a b [Hab|[-> ->]].
      * specialize (Hall a b Hab). split; lia.
      * split; [lia|]. intros _. unfold lex_lt. lia.
    + left. split; [done|]. intros a b [Hab|[-> ->]]; [by apply Hall|done].
  - destruct (Z.ltb_spec (cost_at regs i j) (cost_at regs i0 j0)) as [Hc|Hc].
    + right. exists i, j. split; [done|]. split; [by right|]. split; [lia|].
      intros a b [Hab|[-> ->]].
      * destruct (Hmin a b Hab) as [Hge _]. split; lia.
      * split; [lia|]. intros _. unfold lex_lt. lia.
    + right. exists i0, j0. split; [done|]. split; [by left|]. split; [done|].
      intros a b [Hab|[-> ->]]; [by apply Hmin|].
      split; [done|]. intros _.
      specialize (Hlater i0 j0 Hseen). unfold lex_lt in *. lia.
Qed.

Lemma inner_loop_first_min regs i len start acc :
  (i < start)%nat → (start + len = length regs)%nat →
  first_min regs (seen_upto (length regs) i start) acc →
  first_min regs (seen_upto (length regs) i (length regs))
            (foldl (merge_step regs i) acc (seq start len)).
Proof.
  revert start acc. induction len as [|len IH]; intros start acc Hi Hlen Hacc; simpl.
  - by replace (length regs) with start at 2 by lia.
  - apply IH; [lia..|].
    eapply first_min_ext; [|apply first_min_step; [exact Hacc|..]].
    + intros a b. unfold seen_upto, lex_lt. lia.
    + apply lookup_lt_is_Some. lia.
    + apply lookup_lt_is_Some. lia.
    + intros a b [_ Hab]. done.
Qed.

Lemma outer_loop_first_min regs len start acc :
  (start + len = length regs)%nat →
  first_min regs (seen_upto (length regs) start (S start)) acc →
  first_min regs (λ a b, (a < b < length regs)%nat)
    (foldl (λ acc i, foldl (merge_step regs i) acc (seq (S i) (length regs - S i)))
           acc (seq start len)).
Proof.
  revert start acc. induction len as [|len IH]; intros start acc Hlen Hacc; simpl.
  - eapply first_min_ext; [|exact Hacc].
    intros a b. unfold seen_upto, lex_lt. lia.
  - apply IH; [lia|].
    eapply first_min_ext; [|apply (inner_loop_first_min regs start); [| |exact Hacc]].
    + intros a b. unfold seen_upto, lex_lt. lia.
    + lia.
    + lia.
Qed.

(** The double loop ends on the first pair of least cost. *)
Lemma find_merge_first_min regs :
  first_min regs (λ a b, (a < b < length regs)%nat) (find_merge regs).
Proof.
  unfold find_merge. apply outer_loop_first_min; [done|].
  left. split; [done|]. intros a b [? Hlex]. unfold lex_lt in Hlex. lia.
Qed.

Lemma elem_of_delete_lookup {A} (l : list A) j k x :
  l !! k = Some x → k ≠ j → x ∈ delete j l.
Proof.
  intros Hk Hne. destruct (decide (k < j)%nat) as [Hlt|Hge].
  - apply (list_elem_of_lookup_2 _ k). by rewrite list_lookup_delete_lt.
  - destruct k as [|k]; [lia|].
    apply (list_elem_of_lookup_2 _ k). rewrite list_lookup_delete_ge by lia. done.
Qed.

(** One collapse among at least two regions inside the square: the pair
    [(i, j)] of least area increase, the first such pair in the order of the
    loops, is united in slot [i] and slot [j] is removed. *)
Lemma merge_best_spec regs :
  Forall well_bounded regs → (2 ≤ length regs)%nat →
  ∃ i j ri rj,
    (i < j < length regs)%nat ∧ regs !! i = Some ri ∧ regs !! j = Some rj ∧
    merge_best regs = delete j (<[i := r_add ri rj]> regs) ∧
    ∀ a b, (a < b < length regs)%nat →
      cost_at regs i j ≤ cost_at regs a b ∧
      (cost_at regs a b = cost_at regs i j → ¬ lex_lt a b i j).
Proof.
  intros Hwb Hlen.
  destruct (find_merge_first_min regs) as [[_ Hall]|(i & j & Hm & Hij & Hlt & Hmin)].
  - exfalso.
    assert (is_Some (regs !! 0%nat)) as [r0 H0] by (apply lookup_lt_is_Some; lia).
    assert (is_Some (regs !! 1%nat)) as [r1 H1] by (apply lookup_lt_is_Some; lia).
    specialize (Hall 0%nat 1%nat). unfold cost_at in Hall. rewrite H0, H1 in Hall.
    pose proof (merge_cost_well_bounded r0 r1
                  (Forall_lookup_1 _ _ _ _ Hwb H0) (Forall_lookup_1 _ _ _ _ Hwb H1)) as [_ ?].
    lia.
  - assert (is_Some (regs !! i)) as [ri Hi] by (apply lookup_lt_is_Some; lia).
    assert (is_Some (regs !! j)) as [rj Hj] by (apply lookup_lt_is_Some; lia).
    exists i, j, ri, rj. do 3 (split; [done|]). split; [|done].
    unfold merge_best. rewrite Hm. simpl.
    destruct (Z.leb_spec 0 (Z.of_nat j)); [|lia].
    destruct (Z.leb_spec 0 (Z.of_nat i)); [|lia].
    simpl. rewrite !Nat2Z.id, Hj. f_equal.
    apply list_eq. intros k. rewrite list_lookup_alter, list_lookup_insert.
    destruct (decide (i = k)) as [->|Hne].
    + rewrite Hi. simpl. rewrite decide_True; [done|]. split; [done|lia].
    + rewrite decide_False; [done|]. intros [? _]. done.
Qed.

Lemma merge_best_keeps regs :
  Forall well_bounded regs → (2 ≤ length regs)%nat →
  S (length (merge_best regs)) = length regs ∧
  covers (merge_best regs) regs ∧
  Forall well_bounded (merge_best regs).
Proof.
  intros Hwb Hlen.
  destruct (merge_best_spec regs Hwb Hlen) as (i & j & ri & rj & Hij & Hi & Hj & -> & _).
  pose proof (Forall_lookup_1 _ _ _ _ Hwb Hi) as Hwi.
  pose proof (Forall_lookup_1 _ _ _ _ Hwb Hj) as Hwj.
  assert (<[i := r_add ri rj]> regs !! i = Some (r_add ri rj)) as Hnew
    by (apply list_lookup_insert_eq; lia).
  split; [|split].
  - rewrite length_delete.
    + rewrite length_insert. lia.
    + apply lookup_lt_is_Some. rewrite length_insert. lia.
  - intros rg Hrg. apply list_elem_of_lookup in Hrg as [k Hk].
    destruct (decide (k = i)) as [->|Hki]; [|destruct (decide (k = j)) as [->|Hkj]].
    + exists (r_add ri rj). assert (rg = ri) as -> by congruence.
      split; [|apply contains_r_add_l].
      apply (elem_of_delete_lookup _ j i); [done|lia].
    + exists (r_add ri rj). assert (rg = rj) as -> by congruence.
      split; [|apply contains_r_add_r].
      apply (elem_of_delete_lookup _ j i); [done|lia].
    + exists rg. split; [|apply contains_refl].
      apply (elem_of_delete_lookup _ j k); [|done].
      by rewrite list_lookup_insert_ne.
  - apply Forall_delete, Forall_insert; [done|]. by apply well_bounded_r_add.
Qed.

(** ** The iteration budgets of the model are never exhausted *)

Lemma scan_step_budget maxw maxh u0 st n :
  (unassigned (pp_img st) + (if b_ok st then 1 else 0) ≤ u0)%nat →
  (unassigned (pp_img (scan_step maxw maxh st n))
   + (if b_ok (scan_step maxw maxh st n) then 1 else 0) ≤ u0)%nat.
Proof.
  intros Hbudget. unfold scan_step.
  destruct (pp_img st !! n) as [[f|]|] eqn:Hn; [|done..].
  destruct (0 <=? find_best (region st) (r_img f) maxw maxh); [|done].
  pose proof (unassigned_insert_None _ _ _ Hn). simpl.
  destruct (b_ok st); lia.
Qed.

Lemma scan_budget maxw maxh i_count st :
  (unassigned (pp_img (scan maxw maxh i_count st))
   + (if b_ok (scan maxw maxh i_count st) then 1 else 0)
   ≤ unassigned (pp_img st))%nat.
Proof.
  unfold scan.
  apply (foldl_invariant
           (λ st', (unassigned (pp_img st') + (if b_ok st' then 1 else 0)
                    ≤ unassigned (pp_img st))%nat)).
  - simpl. lia.
  - intros st0 n _. apply scan_step_budget.
Qed.

Lemma grow_total fuel maxw maxh i_count st :
  (unassigned (pp_img st) < fuel)%nat →
  ∃ st', grow fuel maxw maxh i_count st = Some st' ∧
         (unassigned (pp_img st') ≤ unassigned (pp_img st))%nat.
Proof.
  revert st. induction fuel as [|fuel IH]; intros st Hfuel; [lia|].
  simpl. pose proof (scan_budget maxw maxh i_count st) as Hbudget.
  destruct (b_ok (scan maxw maxh i_count st)).
  - destruct (IH (scan maxw maxh i_count st)) as (st' & Hg & Hu); [lia|].
    exists st'. split; [done|lia].
  - eexists. split; [done|lia].
Qed.

(** ** The outer loop *)

Lemma build_loop_S fuel i_max_region maxw maxh i_count st :
  build_loop (S fuel) i_max_region maxw maxh i_count st =
    if i_used st <? i_count then
      match first_unassigned (pp_img st) with
      | None => Abort
      | Some (n, p_img) =>
          if Z.of_nat (length (region st)) <? i_max_region + 1 then
            let st1 := {| pp_img := <[n := None]> (pp_img st);
                          region := region st ++ [r_img p_img];
                          i_used := i_used st + 1;
                          b_ok := b_ok st |} in
            match grow (S (length (pp_img st1))) maxw maxh i_count st1 with
            | None => OutOfFuel
            | Some st2 =>
                let st3 :=
                  if i_max_region <? Z.of_nat (length (region st2)) then
                    {| pp_img := pp_img st2; region := merge_best (region st2);
                       i_used := i_used st2; b_ok := b_ok st2 |}
                  else st2 in
                build_loop fuel i_max_region maxw maxh i_count st3
            end
          else Abort
      end
    else Done (region st).
Proof. reflexivity. Qed.

Section OuterLoop.
Variable kept : list ASS_Image.
Hypothesis Hkept : Forall (λ f, positive_size f = true ∧ in_canvas f) kept.
Variables i_max_region maxw maxh : Z.
Hypothesis Hcap : 1 ≤ i_max_region.

Lemma merge_inv st :
  build_inv kept st → (2 ≤ length (region st))%nat →
  build_inv kept {| pp_img := pp_img st; region := merge_best (region st);
                    i_used := i_used st; b_ok := b_ok st |}.
Proof.
  intros Hinv Hlen.
  destruct (merge_best_keeps (region st) (inv_regions _ _ Hinv) Hlen)
    as (_ & Hcov & Hwb).
  constructor; simpl; [apply Hinv..| |done].
  intros n f Hn.
  destruct (inv_slots _ _ Hinv n f Hn) as [Hs|[Hs (rg & Hrg & Hc)]]; [by left|].
  right. split; [done|].
  destruct (Hcov rg Hrg) as (rg' & Hrg' & Hc').
  exists rg'. split; [done|]. by eapply contains_trans.
Qed.

(** From a state within the cap the loop runs to its end: it returns at
    most [i_max_region] rectangles, and every kept fragment lies within
    one of them. *)
Lemma build_loop_done fuel st :
  build_inv kept st →
  Z.of_nat (length (region st)) ≤ i_max_region →
  (unassigned (pp_img st) < fuel)%nat →
  ∃ l, build_loop fuel i_max_region maxw maxh (Z.of_nat (length kept)) st = Done l ∧
       Z.of_nat (length l) ≤ i_max_region ∧
       Forall well_bounded l ∧
       ∀ n f, kept !! n = Some f → ∃ rg, rg ∈ l ∧ contains rg (r_img f).
Proof.
  revert st. induction fuel as [|fuel IH]; intros st Hinv Hcount Hfuel; [lia|].
  rewrite build_loop_S.
  pose proof (inv_used _ _ Hinv) as Hused.
  destruct (Z.ltb_spec (i_used st) (Z.of_nat (length kept))) as [Hmore|Hend].
  - destruct (first_unassigned (pp_img st)) as [[n f]|] eqn:Hfirst.
    2:{ apply first_unassigned_None in Hfirst. lia. }
    destruct (Z.ltb_spec (Z.of_nat (length (region st))) (i_max_region + 1)); [|lia].
    destruct (seed_inv kept Hkept st n f Hinv Hfirst) as [Hinv1 Hun1].
    cbv zeta.
    set (st1 := {| pp_img := <[n := None]> (pp_img st);
                   region := region st ++ [r_img f];
                   i_used := i_used st + 1; b_ok := b_ok st |}) in *.
    destruct (grow_terminates kept Hkept maxw maxh (S (length (pp_img st1)))
                (Z.of_nat (length kept)) st1 Hinv1)
      as (st2 & Hgrow & Hinv2 & Hlen2 & Hun2).
    { pose proof (unassigned_le_length (pp_img st1)). lia. }
    rewrite Hgrow.
    assert (length (region st1) = S (length (region st))) as Hlen1.
    { unfold st1. simpl. rewrite length_app. simpl. lia. }
    destruct (Z.ltb_spec i_max_region (Z.of_nat (length (region st2)))) as [Hover|Hfit].
    + destruct (merge_best_keeps (region st2) (inv_regions _ _ Hinv2)) as (Hlen3 & _);
        [lia|].
      apply IH; simpl.
      * apply merge_inv; [done|lia].
      * lia.
      * lia.
    + apply IH; [done|lia|lia].
  - exists (region st). split; [done|]. split; [done|]. split; [apply Hinv|].
    intros n f Hn.
    destruct (inv_slots _ _ Hinv n f Hn) as [Hs|[_ Hcov]]; [|done].
    exfalso. eapply (unassigned_zero (pp_img st)); [lia|done].
Qed.
End OuterLoop.

(** Whatever the cap and the coordinates, the loop ends by returning or by
    the failed assertion, never on the budget of the model. *)
Lemma build_loop_total fuel i_max_region maxw maxh i_count st :
  (unassigned (pp_img st) < fuel)%nat →
  build_loop fuel i_max_region maxw maxh i_count st ≠ OutOfFuel.
Proof.
  revert st. induction fuel as [|fuel IH]; intros st Hfuel; [lia|].
  rewrite build_loop_S.
  destruct (i_used st <? i_count); [|done].
  destruct (first_unassigned (pp_img st)) as [[n f]|] eqn:Hfirst; [|done].
  destruct (Z.of_nat (length (region st)) <? i_max_region + 1); [|done].
  apply first_unassigned_Some in Hfirst.
  pose proof (unassigned_insert_None _ _ _ Hfirst) as Hun.
  cbv zeta.
  set (st1 := {| pp_img := <[n := None]> (pp_img st);
                 region := region st ++ [r_img f];
                 i_used := i_used st + 1; b_ok := b_ok st |}) in *.
  destruct (grow_total (S (length (pp_img st1))) maxw maxh i_count st1)
    as (st2 & -> & Hun2).
  { pose proof (unassigned_le_length (pp_img st1)). lia. }
  apply IH.
  assert (unassigned (pp_img st2) < fuel)%nat by (unfold st1 in *; simpl in *; lia).
  by destruct (i_max_region <? Z.of_nat (length (region st2))).
Qed.

(** The array [pp_img] as first filled. *)
Lemma unassigned_fmap_Some (kept : list ASS_Image) :
  unassigned (Some <$> kept) = length kept.
Proof. induction kept as [|f kept IH]; csimpl; [done|]. by rewrite IH. Qed.

Lemma initial_inv kept :
  build_inv kept {| pp_img := Some <$> kept; region := []; i_used := 0; b_ok := false |}.
Proof.
  constructor; simpl.
  - apply length_fmap.
  - rewrite unassigned_fmap_Some. lia.
  - intros n f Hn. left. by rewrite list_lookup_fmap, Hn.
  - constructor.
Qed.

Lemma BuildRegions_total calloc_ok i_max_region p_img_list i_width i_height :
  BuildRegions calloc_ok i_max_region p_img_list i_width i_height ≠ OutOfFuel.
Proof.
  unfold BuildRegions.
  destruct (_ <=? 0); [done|]. destruct (negb calloc_ok); [done|].
  apply build_loop_total.
  change (unassigned (Some <$> List.filter positive_size p_img_list)
          < S (length (List.filter positive_size p_img_list)))%nat.
  rewrite unassigned_fmap_Some. lia.
Qed.

(** The whole partitioner on fragments inside the square, with a cap of at
    least one. *)
Lemma BuildRegions_done calloc_ok i_max_region p_img_list i_width i_height :
  1 ≤ i_max_region →
  (∀ f, f ∈ p_img_list → positive_size f = true → in_canvas f) →
  ∃ l, BuildRegions calloc_ok i_max_region p_img_list i_width i_height = Done l ∧
       Z.of_nat (length l) ≤ i_max_region ∧
       (calloc_ok = true →
        ∀ f, f ∈ p_img_list → positive_size f = true →
             ∃ rg, rg ∈ l ∧ contains rg (bounding_box f)).
Proof.
  intros Hcap Hcanvas. unfold BuildRegions.
  set (kept := List.filter positive_size p_img_list).
  assert (∀ f, f ∈ kept ↔ f ∈ p_img_list ∧ positive_size f = true) as Hin.
  { intros f. unfold kept. rewrite !list_elem_of_In, filter_In. done. }
  assert (Forall (λ f, positive_size f = true ∧ in_canvas f) kept) as Hkept.
  { apply Forall_forall. intros f Hf. apply Hin in Hf as [Hf Hp]. auto. }
  destruct (Z.leb_spec (Z.of_nat (length kept)) 0) as [Hnone|Hsome].
  { exists []. split; [done|]. split; [simpl; lia|].
    intros _ f Hf Hp. assert (f ∈ kept) as Hk by (by apply Hin).
    destruct kept; [by apply elem_of_nil in Hk|simpl in Hnone; lia]. }
  destruct calloc_ok; cbn [negb].
  2:{ exists []. split; [done|]. split; [simpl; lia|done]. }
  destruct (build_loop_done kept Hkept i_max_region (i_maxw i_height) (i_maxh i_width)
              Hcap (S (length kept)) _ (initial_inv kept))
    as (l & Hl & Hlen & _ & Hcov).
  { simpl. lia. }
  { change (unassigned (Some <$> kept) < S (length kept))%nat.
    rewrite unassigned_fmap_Some. lia. }
  exists l. split; [done|]. split; [done|].
  intros _ f Hf Hp. assert (f ∈ kept) as Hk by (by apply Hin).
  apply list_elem_of_lookup in Hk as [n Hn].
  destruct (Hcov n f Hn) as (rg & Hrg & Hc).
  exists rg. split; [done|].
  destruct (r_img_in_canvas f (Hcanvas f Hf Hp) Hp) as [<- _]. done.
Qed.

(** ** The choice of the absorbing region *)

Lemma find_best_step_stuck regs r maxw maxh acc k :
  ¬ r_surface r < acc.2 → find_best_step regs r maxw maxh acc k = acc.
Proof.
  intros Hs. unfold find_best_step.
  destruct (regs !! k); [|done]. destruct (r_overlap _ _ _ _); [|done].
  destruct (Z.ltb_spec (r_surface r) acc.2); [lia|done].
Qed.

Lemma find_best_fold_stuck regs r maxw maxh acc ks :
  ¬ r_surface r < acc.2 → foldl (find_best_step regs r maxw maxh) acc ks = acc.
Proof.
  intros Hs. apply (foldl_invariant (λ a, a = acc)); [done|].
  intros a k _ ->. by apply find_best_step_stuck.
Qed.

Lemma find_best_fold_first pre suf r maxw maxh :
  r_surface r < INT_MAX →
  (foldl (find_best_step (pre ++ suf) r maxw maxh) (-1, INT_MAX)
         (seq (length pre) (length suf))).1
  = from_option (λ k, Z.of_nat (length pre + k)) (-1) (first_mergeable suf r maxw maxh).
Proof.
  intros Hs. revert pre. induction suf as [|rk suf IH]; intros pre; [done|].
  simpl. unfold find_best_step at 2. rewrite list_lookup_middle by done.
  destruct (r_overlap rk r maxw maxh) eqn:Hov.
  - simpl. destruct (Z.ltb_spec (r_surface r) INT_MAX); [|lia].
    rewrite find_best_fold_stuck by (simpl; lia). simpl. f_equal. lia.
  - specialize (IH (pre ++ [rk])).
    rewrite <- app_assoc, length_app in IH. simpl in IH.
    replace (length pre + 1)%nat with (S (length pre)) in IH by lia.
    rewrite IH. destruct (first_mergeable suf r maxw maxh); simpl; [|done].
    f_equal. lia.
Qed.

(** The loop over [k] compares the surface of the fragment with itself, so
    its first success is final: the region chosen is the lowest slot that
    passes the overlap test, whatever the surfaces of the regions. *)
Lemma find_best_first_mergeable regs r maxw maxh :
  r_surface r < INT_MAX →
  find_best regs r maxw maxh
  = from_option Z.of_nat (-1) (first_mergeable regs r maxw maxh).
Proof.
  intros Hs. unfold find_best.
  pose proof (find_best_fold_first [] regs r maxw maxh Hs) as Hfold.
  simpl in Hfold. rewrite Hfold.
  by destruct (first_mergeable regs r maxw maxh).
Qed.

(** C1 fails on the code.  Before the seventh of [seven_fragments] is
    scanned the regions are [regions_before_seventh]; the fragment is
    mergeable with slot 0, of surface 2100, and with slot 4, of surface 100.
    The claim sends it to slot 4; the code takes slot 0, as the final
    rectangle (0,0)-(210,45) shows. *)
Theorem C1_absorbed_by_first_mergeable_region :
  let r := r_img (fragment_at 100 35 10 10) in
  mergeable 1000 1000 (r_create 0 0 210 10) r = true ∧
  mergeable 1000 1000 (r_create 100 50 110 60) r = true ∧
  r_surface (r_create 0 0 210 10) = 2100 ∧
  r_surface (r_create 100 50 110 60) = 100 ∧
  find_best regions_before_seventh r (i_maxw 1000) (i_maxh 1000) = 0 ∧
  spec_find_best regions_before_seventh r (i_maxw 1000) (i_maxh 1000) = 4 ∧
  BuildRegions true 4 seven_fragments 1000 1000
  = Done [r_create 0 0 210 45; r_create 0 500 310 510; r_create 0 900 10 910;
          r_create 100 50 110 60].
Proof. by vm_compute. Qed.

(** ** The partitioner as a whole *)

Lemma merge_cost_area a b :
  well_bounded a → well_bounded b → merge_cost a b = area_increase a b.
Proof.
  intros Ha Hb.
  destruct (merge_cost_well_bounded a b Ha Hb) as [-> _].
  destruct (r_surface_well_bounded _ (well_bounded_r_add _ _ Ha Hb)) as [-> _].
  destruct (r_surface_well_bounded _ Ha) as [-> _].
  destruct (r_surface_well_bounded _ Hb) as [-> _].
  done.
Qed.

Lemma filter_positive_idem F :
  List.filter positive_size (List.filter positive_size F) = List.filter positive_size F.
Proof.
  induction F as [|f F IH]; simpl; [done|].
  destruct (positive_size f) eqn:Hf; simpl; [|done]. by rewrite Hf, IH.
Qed.

(** C3: with a cap [k] of at least one the partitioner returns at most [k]
    rectangles.  The cap is exceeded only between a seed and the collapse
    that follows it; one collapse removes exactly one region, uniting the
    pair [(i, j)] with the least area increase
    [area(union) - area(i) - area(j)], the first such pair in the order of
    [(i, j)]. *)
Theorem C3_region_count_within_cap (calloc_ok : bool) (k : Z)
    (F : list ASS_Image) (W H : Z) :
  1 ≤ k →
  (∀ f, f ∈ F → positive_size f = true → in_canvas f) →
  (∃ l, BuildRegions calloc_ok k F W H = Done l ∧ Z.of_nat (length l) ≤ k) ∧
  (∀ regs, Forall well_bounded regs → (2 ≤ length regs)%nat →
     ∃ i j ri rj,
       (i < j < length regs)%nat ∧ regs !! i = Some ri ∧ regs !! j = Some rj ∧
       merge_best regs = delete j (<[i := r_add ri rj]> regs) ∧
       S (length (merge_best regs)) = length regs ∧
       ∀ a b ra rb, (a < b < length regs)%nat →
         regs !! a = Some ra → regs !! b = Some rb →
         area_increase ri rj ≤ area_increase ra rb ∧
         (area_increase ra rb = area_increase ri rj → ¬ lex_lt a b i j)).
Proof.
  intros Hcap Hcanvas. split.
  - destruct (BuildRegions_done calloc_ok k F W H Hcap Hcanvas) as (l & Hl & Hlen & _).
    by exists l.
  - intros regs Hwb Hlen.
    destruct (merge_best_spec regs Hwb Hlen) as (i & j & ri & rj & Hij & Hi & Hj & Hm & Hmin).
    destruct (merge_best_keeps regs Hwb Hlen) as (Hlen' & _).
    exists i, j, ri, rj. do 5 (split; [done|]).
    intros a b ra rb Hab Ha Hb.
    specialize (Hmin a b Hab). unfold cost_at in Hmin.
    rewrite Hi, Hj, Ha, Hb in Hmin.
    rewrite !merge_cost_area in Hmin by (by eapply Forall_lookup_1).
    done.
Qed.

Lemma seven_fragments_in_canvas f :
  f ∈ seven_fragments → positive_size f = true → in_canvas f.
Proof.
  intros Hf _. unfold seven_fragments in Hf.
  repeat (apply elem_of_cons in Hf as [->|Hf]);
    [unfold in_canvas, coord_limit; simpl; lia..|].
  by apply elem_of_nil in Hf.
Defined.

Lemma C3_region_count_within_cap_witness :
  ∃ l, BuildRegions true 4 seven_fragments 1000 1000 = Done l ∧ Z.of_nat (length l) ≤ 4.
Proof.
  apply (C3_region_count_within_cap true 4 seven_fragments 1000 1000).
  - lia.
  - exact seven_fragments_in_canvas.
Defined.

(** C4: the rectangles returned contain the bounding box of every fragment
    of positive width and height; the other fragments are dropped before
    anything else is done, the result is the one for the list without
    them. *)
Theorem C4_regions_cover_fragments (k : Z) (F : list ASS_Image) (W H : Z) :
  1 ≤ k →
  (∀ f, f ∈ F → positive_size f = true → in_canvas f) →
  ∃ l, BuildRegions true k F W H = Done l ∧
       (∀ f, f ∈ F → 0 < w f → 0 < h f →
             ∃ rg, rg ∈ l ∧ contains rg (bounding_box f)) ∧
       BuildRegions true k (List.filter positive_size F) W H = Done l.
Proof.
  intros Hcap Hcanvas.
  destruct (BuildRegions_done true k F W H Hcap Hcanvas) as (l & Hl & _ & Hcov).
  exists l. split; [done|]. split.
  - intros f Hf Hw Hh. apply Hcov; [done..|].
    unfold positive_size. apply andb_true_iff. by rewrite !Z.ltb_lt.
  - rewrite <- Hl. unfold BuildRegions. by rewrite filter_positive_idem.
Qed.

Lemma C4_regions_cover_fragments_witness :
  ∃ l, BuildRegions true 4 seven_fragments 1000 1000 = Done l ∧
       (∀ f, f ∈ seven_fragments → 0 < w f → 0 < h f →
             ∃ rg, rg ∈ l ∧ contains rg (bounding_box f)) ∧
       BuildRegions true 4 (List.filter positive_size seven_fragments) 1000 1000 = Done l.
Proof.
  apply (C4_regions_cover_fragments 4 seven_fragments 1000 1000).
  - lia.
  - exact seven_fragments_in_canvas.
Defined.

(** ** Scenarios *)

(** Scenario B: two fragments 190 pixels apart on a 1000x1000 canvas are kept
    in two regions, each the box of its fragment. *)
Example scenario_B :
  BuildRegions true 4 [fragment_at 0 0 10 10; fragment_at 200 200 10 10] 1000 1000
  = Done [r_create 0 0 10 10; r_create 200 200 210 210].
Proof. by vm_compute. Qed.

(** Scenario C: with a cap of one, five scattered fragments end in the one
    region that bounds them all. *)
Example scenario_C :
  BuildRegions true 1
    [fragment_at 0 0 10 10; fragment_at 900 0 10 10; fragment_at 0 900 10 10;
     fragment_at 900 900 10 10; fragment_at 450 450 10 10] 1000 1000
  = Done [r_create 0 0 910 910].
Proof. by vm_compute. Qed.

(** A cap of zero is outside the contract: the second seed trips the
    assertion on the number of regions. *)
Example cap_zero_aborts :
  BuildRegions true 0 [fragment_at 0 0 10 10; fragment_at 200 200 10 10] 1000 1000
  = Abort.
Proof. by vm_compute. Qed.


(** * Further properties of the code *)

(** ** Rectangles *)

(** X1: [r_add] computes the least rectangle that contains both arguments:
    it contains each of them, and any rectangle containing both contains
    it. *)
Theorem X1_r_add_least_upper_bound (a b : rectangle_t) :
  contains (r_add a b) a ∧ contains (r_add a b) b ∧
  ∀ c, contains c a → contains c b → contains c (r_add a b).
Proof.
  split; [apply contains_r_add_l|]. split; [apply contains_r_add_r|].
  intros c. unfold contains, r_add. simpl. rewrite !MIN_min, !MAX_max. lia.
Qed.

Lemma rectangle_eq (a b : rectangle_t) :
  x0 a = x0 b → y0 a = y0 b → x1 a = x1 b → y1 a = y1 b → a = b.
Proof. destruct a, b. simpl. by intros -> -> -> ->. Qed.

(** X2: the order in which rectangles are united does not matter ([r_add] is
    commutative and associative), and uniting a region with a rectangle it
    already contains leaves the region as it is. *)
Theorem X2_r_add_order_irrelevant (a b c : rectangle_t) :
  r_add a b = r_add b a ∧
  r_add (r_add a b) c = r_add a (r_add b c) ∧
  (contains a b → r_add a b = a).
Proof.
  split; [|split].
  - apply rectangle_eq; unfold r_add; simpl; rewrite ?MIN_min, ?MAX_max; lia.
  - apply rectangle_eq; unfold r_add; simpl; rewrite ?MIN_min, ?MAX_max; lia.
  - unfold contains. intros Hc.
    apply rectangle_eq; unfold r_add; simpl; rewrite ?MIN_min, ?MAX_max; lia.
Qed.

Lemma X2_r_add_order_irrelevant_witness :
  r_add (r_create 0 0 100 50) (r_create 10 10 20 20) = r_create 0 0 100 50.
Proof.
  refine (proj2 (proj2 (X2_r_add_order_irrelevant
                          (r_create 0 0 100 50) (r_create 10 10 20 20)
                          (r_create 0 0 0 0))) _).
  unfold contains. simpl. lia.
Defined.

(** X3: a fragment rectangle of positive size that lies inside a region
    passes the overlap test with it at any tolerance that is not negative. *)
Theorem X3_inner_fragment_overlaps (a b : rectangle_t) (i_dx i_dy : Z) :
  contains a b → positive_rect b → 0 ≤ i_dx → 0 ≤ i_dy →
  INT_MIN ≤ x0 a - i_dx → x1 a + i_dx ≤ INT_MAX →
  INT_MIN ≤ y0 a - i_dy → y1 a + i_dy ≤ INT_MAX →
  r_overlap a b i_dx i_dy = true.
Proof.
  unfold contains, positive_rect. intros Hc Hp Hdx Hdy Hx0 Hx1 Hy0 Hy1.
  apply r_overlap_expand; try lia.
  unfold strict_overlap, expand. simpl. lia.
Qed.

Lemma X3_inner_fragment_overlaps_witness :
  r_overlap (r_create 0 0 210 10) (r_create 100 2 110 8) 32 32 = true.
Proof.
  apply (X3_inner_fragment_overlaps (r_create 0 0 210 10) (r_create 100 2 110 8) 32 32);
    unfold contains, positive_rect, INT_MIN, INT_MAX; simpl; lia.
Defined.





(** ** The partitioner on small and degenerate inputs *)

Lemma first_mergeable_lowest regs r maxw maxh k rk :
  regs !! k = Some rk → r_overlap rk r maxw maxh = true →
  (∀ j rj, (j < k)%nat → regs !! j = Some rj → r_overlap rj r maxw maxh = false) →
  first_mergeable regs r maxw maxh = Some k.
Proof.
  revert k. induction regs as [|r0 regs IH]; intros k Hk Hov Hbefore; [done|].
  destruct k as [|k]; simpl in *.
  - simplify_eq. by rewrite Hov.
  - rewrite (Hbefore 0%nat r0) by (done || lia).
    rewrite (IH k); [done..|].
    intros j rj Hj Hrj. apply (Hbefore (S j) rj); [lia|done].
Qed.

Lemma first_mergeable_none regs r maxw maxh :
  (∀ k rk, regs !! k = Some rk → r_overlap rk r maxw maxh = false) →
  first_mergeable regs r maxw maxh = None.
Proof.
  induction regs as [|r0 regs IH]; intros Hall; [done|]. simpl.
  rewrite (Hall 0%nat r0) by done.
  rewrite IH; [done|]. intros k rk Hk. by apply (Hall (S k) rk).
Qed.

(** X5: the loop that picks the absorbing region returns the lowest slot
    whose region passes the overlap test with the fragment, and -1 when no
    region passes it.  A fragment whose surface is exactly [INT_MAX] is
    never given a region, since its surface is not below the initial
    [i_best_s]. *)
Theorem X5_find_best_lowest_overlapping (regs : list rectangle_t) (r : rectangle_t)
    (maxw maxh : Z) :
  (∀ k rk, r_surface r < INT_MAX →
     regs !! k = Some rk → r_overlap rk r maxw maxh = true →
     (∀ j rj, (j < k)%nat → regs !! j = Some rj → r_overlap rj r maxw maxh = false) →
     find_best regs r maxw maxh = Z.of_nat k) ∧
  ((∀ k rk, regs !! k = Some rk → r_overlap rk r maxw maxh = false) →
     find_best regs r maxw maxh = -1) ∧
  (r_surface r = INT_MAX → find_best regs r maxw maxh = -1).
Proof.
  split; [|split].
  - intros k rk Hs Hk Hov Hbefore.
    rewrite find_best_first_mergeable by done.
    by rewrite (first_mergeable_lowest regs r maxw maxh k rk).
  - intros Hall.
    destruct (Z.lt_ge_cases (r_surface r) INT_MAX) as [Hs|Hs].
    + rewrite find_best_first_mergeable by done.
      by rewrite first_mergeable_none.
    + unfold find_best. rewrite find_best_fold_stuck; [done|]. simpl. lia.
  - intros Hs. unfold find_best. rewrite find_best_fold_stuck; [done|]. simpl. lia.
Qed.

Lemma X5_find_best_lowest_overlapping_witness :
  find_best regions_before_seventh (r_create 100 35 110 45) 32 32 = 0.
Proof.
  refine (proj1 (X5_find_best_lowest_overlapping regions_before_seventh
                   (r_create 100 35 110 45) 32 32) 0%nat (r_create 0 0 210 10) _ _ _ _).
  - by vm_compute.
  - reflexivity.
  - reflexivity.
  - intros j rj Hj. lia.
Defined.

Lemma filter_positive_none F :
  (∀ f, f ∈ F → w f ≤ 0 ∨ h f ≤ 0) → List.filter positive_size F = [].
Proof.
  induction F as [|f F IH]; intros Hall; [done|]. simpl.
  assert (positive_size f = false) as ->.
  { unfold positive_size. apply andb_false_iff.
    destruct (Hall f) as [Hw|Hh]; [by left| |]; [left|right]; by apply Z.ltb_ge. }
  apply IH. intros g Hg. apply Hall. by right.
Qed.

(** X6: when no fragment has positive width and height (in particular on
    the empty list), or when the scratch array cannot be allocated, the
    partitioner returns no rectangle, whatever the cap and the canvas. *)
Theorem X6_nothing_to_draw (calloc_ok : bool) (i_max_region : Z)
    (F : list ASS_Image) (W H : Z) :
  (∀ f, f ∈ F → w f ≤ 0 ∨ h f ≤ 0) ∨ calloc_ok = false →
  BuildRegions calloc_ok i_max_region F W H = Done [].
Proof.
  intros [Hnone| ->]; unfold BuildRegions.
  - by rewrite filter_positive_none.
  - by destruct (_ <=? 0).
Qed.

Lemma X6_nothing_to_draw_witness :
  BuildRegions true 4 [fragment_at 0 0 0 10; fragment_at 5 5 10 (-1)] 1000 1000 = Done [].
Proof.
  apply (X6_nothing_to_draw true 4 [fragment_at 0 0 0 10; fragment_at 5 5 10 (-1)]).
  left. intros f Hf.
  repeat (apply elem_of_cons in Hf as [->|Hf]); [simpl; lia..|].
  by apply elem_of_nil in Hf.
Defined.

Lemma scan_step_assigned maxw maxh st n :
  unassigned (pp_img st) = 0%nat → scan_step maxw maxh st n = st.
Proof.
  intros Hz. unfold scan_step.
  destruct (pp_img st !! n) as [[f|]|] eqn:Hn; [|done..].
  by apply unassigned_zero in Hn.
Qed.

Lemma scan_assigned maxw maxh i_count st :
  unassigned (pp_img st) = 0%nat →
  scan maxw maxh i_count st
  = {| pp_img := pp_img st; region := region st; i_used := i_used st; b_ok := false |}.
Proof.
  intros Hz. unfold scan.
  apply (foldl_invariant (λ st', st' = {| pp_img := pp_img st; region := region st;
                                          i_used := i_used st; b_ok := false |})); [done|].
  intros st' n _ ->. by apply scan_step_assigned.
Qed.

Lemma grow_assigned fuel maxw maxh i_count st :
  unassigned (pp_img st) = 0%nat →
  grow (S fuel) maxw maxh i_count st
  = Some {| pp_img := pp_img st; region := region st; i_used := i_used st; b_ok := false |}.
Proof. intros Hz. simpl. by rewrite scan_assigned. Qed.

Lemma merge_best_single r : merge_best [r] = [r].
Proof. reflexivity. Qed.

(** X7: a single fragment of positive size comes back as one rectangle, the
    fragment's own, for every cap that is not negative (also the cap 0). *)
Theorem X7_single_fragment (i_max_region : Z) (f : ASS_Image) (W H : Z) :
  positive_size f = true → 0 ≤ i_max_region →
  BuildRegions true i_max_region [f] W H = Done [r_img f].
Proof.
  intros Hpos Hcap. unfold BuildRegions. cbn [List.filter]. rewrite Hpos.
  cbn [length negb fmap list_fmap].
  change (Z.of_nat 1) with 1.
  destruct (Z.leb_spec 1 0); [lia|].
  rewrite build_loop_S. cbn [i_used pp_img region b_ok first_unassigned length].
  change (Z.of_nat 0) with 0.
  destruct (Z.ltb_spec 0 1); [|lia].
  destruct (Z.ltb_spec 0 (i_max_region + 1)); [|lia].
  cbv zeta. cbn [pp_img insert list_insert].
  rewrite grow_assigned by done.
  cbn [pp_img region i_used b_ok app length].
  change (Z.of_nat 1) with 1. rewrite merge_best_single.
  assert (∀ b : bool, (if b then {| pp_img := [None]; region := [r_img f];
                                    i_used := 0 + 1; b_ok := false |}
                       else {| pp_img := [None]; region := [r_img f];
                               i_used := 0 + 1; b_ok := false |})
                      = {| pp_img := [None]; region := [r_img f];
                           i_used := 1; b_ok := false |}) as -> by (by intros []).
  rewrite build_loop_S. cbn [i_used region].
  by destruct (Z.ltb_spec 1 1); [lia|].
Qed.

Lemma X7_single_fragment_witness :
  BuildRegions true 0 [fragment_at 3 4 10 20] 1000 1000 = Done [r_create 3 4 13 24].
Proof.
  apply (X7_single_fragment 0 (fragment_at 3 4 10 20) 1000 1000); [reflexivity|lia].
Defined.

Lemma find_best_single r1 r2 maxw maxh :
  r_surface r2 < INT_MAX →
  find_best [r1] r2 maxw maxh = if r_overlap r1 r2 maxw maxh then 0 else -1.
Proof.
  intros Hs. rewrite find_best_first_mergeable by done. simpl.
  by destruct (r_overlap r1 r2 maxw maxh).
Qed.

Lemma scan_pair maxw maxh r1 f2 u b :
  scan maxw maxh 2 {| pp_img := [None; Some f2]; region := [r1]; i_used := u; b_ok := b |}
  = if 0 <=? find_best [r1] (r_img f2) maxw maxh
    then {| pp_img := [None; None];
            region := alter (λ rg, r_add rg (r_img f2))
                        (Z.to_nat (find_best [r1] (r_img f2) maxw maxh)) [r1];
            i_used := u + 1; b_ok := true |}
    else {| pp_img := [None; Some f2]; region := [r1]; i_used := u; b_ok := false |}.
Proof. reflexivity. Qed.

Lemma grow_S fuel maxw maxh i_count st :
  grow (S fuel) maxw maxh i_count st
  = if b_ok (scan maxw maxh i_count st)
    then grow fuel maxw maxh i_count (scan maxw maxh i_count st)
    else Some (scan maxw maxh i_count st).
Proof. reflexivity. Qed.

(** X8: two fragments of positive size under a cap of at least two end in
    one region, the union of their rectangles, when the second passes the
    overlap test with the first, and in two regions, one per fragment,
    otherwise. *)
Theorem X8_two_fragments (i_max_region : Z) (f1 f2 : ASS_Image) (W H : Z) :
  positive_size f1 = true → positive_size f2 = true →
  2 ≤ i_max_region → r_surface (r_img f2) < INT_MAX →
  BuildRegions true i_max_region [f1; f2] W H
  = Done (if mergeable W H (r_img f1) (r_img f2)
          then [r_add (r_img f1) (r_img f2)]
          else [r_img f1; r_img f2]).
Proof.
  intros Hp1 Hp2 Hcap Hs. unfold BuildRegions, mergeable.
  cbn [List.filter]. rewrite Hp1, Hp2.
  cbn [length negb fmap list_fmap].
  change (Z.of_nat 2) with 2.
  destruct (Z.leb_spec 2 0); [lia|].
  rewrite build_loop_S. cbn [i_used pp_img region b_ok first_unassigned length].
  change (Z.of_nat 0) with 0.
  destruct (Z.ltb_spec 0 2); [|lia].
  destruct (Z.ltb_spec 0 (i_max_region + 1)); [|lia].
  cbv zeta. cbn [pp_img insert list_insert app].
  rewrite grow_S, scan_pair, find_best_single by done.
  destruct (r_overlap (r_img f1) (r_img f2) (i_maxw H) (i_maxh W)).
  - change (0 <=? 0) with true.
    change (alter (λ rg, r_add rg (r_img f2)) (Z.to_nat 0) [r_img f1])
      with [r_add (r_img f1) (r_img f2)].
    cbn [b_ok length].
    rewrite grow_assigned by done.
    cbn [pp_img region i_used b_ok length].
    change (Z.of_nat 1) with 1.
    destruct (Z.ltb_spec i_max_region 1); [lia|].
    rewrite build_loop_S. cbn [i_used region].
    by destruct (Z.ltb_spec (0 + 1 + 1) 2); [lia|].
  - change (0 <=? -1) with false. cbn [b_ok region length].
    change (Z.of_nat 1) with 1.
    destruct (Z.ltb_spec i_max_region 1); [lia|].
    rewrite build_loop_S. cbn [i_used pp_img region b_ok first_unassigned length].
    change (Z.of_nat 1) with 1.
    destruct (Z.ltb_spec (0 + 1) 2); [|lia].
    destruct (Z.ltb_spec 1 (i_max_region + 1)); [|lia].
    cbv zeta. cbn [pp_img insert list_insert app].
    rewrite grow_assigned by done.
    cbn [pp_img region i_used b_ok length].
    change (Z.of_nat 2) with 2.
    destruct (Z.ltb_spec i_max_region 2); [lia|].
    rewrite build_loop_S. cbn [i_used region].
    by destruct (Z.ltb_spec (0 + 1 + 1) 2); [lia|].
Qed.

Lemma X8_two_fragments_witness :
  BuildRegions true 4 [fragment_at 0 0 10 10; fragment_at 200 200 10 10] 1000 1000
  = Done [r_create 0 0 10 10; r_create 200 200 210 210].
Proof.
  apply (X8_two_fragments 4 (fragment_at 0 0 10 10) (fragment_at 200 200 10 10) 1000 1000);
    try reflexivity; try lia.
Defined.

(** ** What every returned rectangle satisfies *)

Section RegionPredicate.
Variable P : rectangle_t → Prop.
Hypothesis P_add : ∀ a b, P a → P b → P (r_add a b).
Variables maxw maxh : Z.

Lemma lookup_insert_None_pending (pp : list (option ASS_Image)) n m g :
  <[n := None]> pp !! m = Some (Some g) → pp !! m = Some (Some g).
Proof.
  rewrite list_lookup_insert. by destruct (decide (n = m ∧ (n < length pp)%nat)).
Qed.

Lemma seed_satisfy st n f b :
  regions_satisfy P st → first_unassigned (pp_img st) = Some (n, f) →
  regions_satisfy P {| pp_img := <[n := None]> (pp_img st);
                       region := region st ++ [r_img f];
                       i_used := i_used st + 1; b_ok := b |}.
Proof.
  intros [Hpending Hregs] Hfirst. apply first_unassigned_Some in Hfirst.
  split; simpl.
  - intros m g Hm. apply (Hpending m). by eapply lookup_insert_None_pending.
  - apply Forall_app. split; [done|]. apply Forall_singleton. by eapply Hpending.
Qed.

Lemma scan_step_satisfy st n :
  regions_satisfy P st → regions_satisfy P (scan_step maxw maxh st n).
Proof.
  intros [Hpending Hregs]. unfold scan_step.
  destruct (pp_img st !! n) as [[f|]|] eqn:Hn; [|done..].
  destruct (0 <=? find_best (region st) (r_img f) maxw maxh); [|done].
  split; simpl.
  - intros m g Hm. apply (Hpending m). by eapply lookup_insert_None_pending.
  - apply Forall_alter; [done|]. intros rg _ Hrg. apply P_add; [done|].
    by eapply Hpending.
Qed.

Lemma scan_satisfy i_count st :
  regions_satisfy P st → regions_satisfy P (scan maxw maxh i_count st).
Proof.
  intros Hst. unfold scan. apply (foldl_invariant (regions_satisfy P)); [done|].
  intros st' n _. apply scan_step_satisfy.
Qed.

Lemma grow_satisfy fuel i_count st st' :
  grow fuel maxw maxh i_count st = Some st' →
  regions_satisfy P st → regions_satisfy P st'.
Proof.
  revert st. induction fuel as [|fuel IH]; intros st Hg Hst; [done|].
  simpl in Hg. pose proof (scan_satisfy i_count st Hst) as Hscan.
  destruct (b_ok (scan maxw maxh i_count st)); [by eapply IH|].
  by simplify_eq.
Qed.

Lemma merge_best_satisfy regs : Forall P regs → Forall P (merge_best regs).
Proof.
  intros Hregs. unfold merge_best.
  destruct (_ && _); [|done].
  destruct (regs !! Z.to_nat (i_best_j (find_merge regs))) as [rj|] eqn:Hj; [|done].
  apply Forall_delete, Forall_alter; [done|].
  intros ri _ Hri. apply P_add; [done|]. by eapply Forall_lookup_1.
Qed.

Lemma build_loop_satisfy fuel i_max_region i_count st l :
  build_loop fuel i_max_region maxw maxh i_count st = Done l →
  regions_satisfy P st → Forall P l.
Proof.
  revert st. induction fuel as [|fuel IH]; intros st Hl Hst; [done|].
  rewrite build_loop_S in Hl.
  destruct (i_used st <? i_count).
  2:{ simplify_eq. apply Hst. }
  destruct (first_unassigned (pp_img st)) as [[n f]|] eqn:Hfirst; [|done].
  destruct (Z.of_nat (length (region st)) <? i_max_region + 1); [|done].
  cbv zeta in Hl.
  pose proof (seed_satisfy st n f (b_ok st) Hst Hfirst) as Hseed.
  destruct (grow _ maxw maxh i_count _) as [st2|] eqn:Hgrow; [|done].
  pose proof (grow_satisfy _ _ _ _ Hgrow Hseed) as [Hp2 Hr2].
  apply (IH _ Hl).
  destruct (i_max_region <? Z.of_nat (length (region st2))); [|done].
  split; simpl; [done|]. by apply merge_best_satisfy.
Qed.

End RegionPredicate.

Lemma BuildRegions_satisfy (P : rectangle_t → Prop) calloc_ok i_max_region F W H l :
  (∀ a b, P a → P b → P (r_add a b)) →
  (∀ f, f ∈ F → positive_size f = true → P (r_img f)) →
  BuildRegions calloc_ok i_max_region F W H = Done l → Forall P l.
Proof.
  intros P_add HF. unfold BuildRegions.
  destruct (_ <=? 0); [intros; by simplify_eq|].
  destruct (negb calloc_ok); [intros; by simplify_eq|].
  intros Hl. eapply (build_loop_satisfy P P_add); [exact Hl|].
  split; simpl; [|constructor].
  intros n f Hn. rewrite list_lookup_fmap in Hn.
  destruct (List.filter positive_size F !! n) as [g|] eqn:Hg; [|done].
  simpl in Hn. simplify_eq.
  apply list_elem_of_lookup_2, list_elem_of_In, filter_In in Hg as [Hin Hpos].
  apply HF; [by apply list_elem_of_In|done].
Qed.


Lemma contains_r_add_least a b c : contains c a → contains c b → contains c (r_add a b).
Proof. unfold contains, r_add. simpl. rewrite !MIN_min, !MAX_max. lia. Qed.

Lemma positive_rect_r_add a b : positive_rect a → positive_rect (r_add a b).
Proof. unfold positive_rect, r_add. simpl. rewrite !MIN_min, !MAX_max. lia. Qed.

(** X9: every rectangle the partitioner returns has positive width and
    height and stays within any box that holds all the fragments of
    positive size: regions never reach beyond the hull of what they
    cover. *)
Theorem X9_regions_positive_within_hull (k : Z) (F : list ASS_Image)
    (W H : Z) (box : rectangle_t) :
  1 ≤ k →
  (∀ f, f ∈ F → positive_size f = true → in_canvas f) →
  (∀ f, f ∈ F → positive_size f = true → contains box (bounding_box f)) →
  ∃ l, BuildRegions true k F W H = Done l ∧
       Forall (λ rg, contains box rg ∧ positive_rect rg) l.
Proof.
  intros Hcap Hcanvas Hbox.
  destruct (BuildRegions_done true k F W H Hcap Hcanvas) as (l & Hl & _).
  exists l. split; [done|].
  eapply (BuildRegions_satisfy (λ rg, contains box rg ∧ positive_rect rg)); [| |exact Hl].
  - intros a b [Ha Hpa] [Hb _]. split.
    + by apply contains_r_add_least.
    + by apply positive_rect_r_add.
  - intros f Hf Hpos.
    destruct (r_img_in_canvas f (Hcanvas f Hf Hpos) Hpos) as [-> _].
    split; [by apply Hbox|].
    unfold positive_size in Hpos. apply andb_true_iff in Hpos as [Hw Hh].
    apply Z.ltb_lt in Hw, Hh. unfold positive_rect, bounding_box. simpl. lia.
Qed.

Lemma seven_fragments_in_box f :
  f ∈ seven_fragments → positive_size f = true →
  contains (r_create 0 0 310 910) (bounding_box f).
Proof.
  intros Hf _. unfold seven_fragments in Hf.
  repeat (apply elem_of_cons in Hf as [->|Hf]);
    [unfold contains; simpl; lia..|].
  by apply elem_of_nil in Hf.
Defined.

Lemma X9_regions_positive_within_hull_witness :
  ∃ l, BuildRegions true 4 seven_fragments 1000 1000 = Done l ∧
       Forall (λ rg, contains (r_create 0 0 310 910) rg ∧ positive_rect rg) l.
Proof.
  apply (X9_regions_positive_within_hull 4 seven_fragments 1000 1000 (r_create 0 0 310 910)).
  - lia.
  - exact seven_fragments_in_canvas.
  - exact seven_fragments_in_box.
Defined.

(** ** More on the blend *)

Lemma uint_mul_0_r x : uint_mul x 0 = 0.
Proof. unfold uint_mul. by rewrite Z.mul_0_r. Qed.

(** X10: a sample of full opacity from a fragment of full alpha replaces the
    destination pixel by [(r, g, b, 255)], whatever the pixel held. *)
Theorem X10_opaque_sample_replaces (r g b : Z) (dst : pixel) :
  is_byte r → is_byte g → is_byte b →
  blend 255 r g b 255 dst = {| d0 := r; d1 := g; d2 := b; d3 := 255 |}.
Proof.
  intros Hr Hg Hb. unfold blend.
  change (uint_div (uint_mul 255 255) 255) with 255.
  destruct (d3 dst =? 0); [by rewrite !to_uint8_id|].
  change (uint_sub 255 255) with 0. rewrite !uint_mul_0_r.
  change (to_uint8 (uint_sub 255 (uint_div 0 255))) with 255.
  change (255 =? 0) with false. change (uint_div 0 255) with 0.
  rewrite ?uint_mul_0_r.
  assert (∀ s, is_byte s →
            to_uint8 (uint_div (uint_add 0 (uint_mul s 255)) 255) = s) as Hmix.
  { intros s Hs. unfold uint_div, uint_add, uint_mul.
    rewrite (to_unsigned_id (s * 255)) by (unfold is_byte in Hs; lia).
    rewrite Z.add_0_l, to_unsigned_id by (unfold is_byte in Hs; lia).
    rewrite Z.div_mul by done. by apply to_uint8_id. }
  by rewrite !Hmix.
Qed.

Lemma X10_opaque_sample_replaces_witness :
  blend 255 200 100 50 255 {| d0 := 1; d1 := 2; d2 := 3; d3 := 77 |}
  = {| d0 := 200; d1 := 100; d2 := 50; d3 := 255 |}.
Proof.
  apply (X10_opaque_sample_replaces 200 100 50); unfold is_byte; lia.
Defined.

Lemma spec_new_a_upper dst_a an :
  is_byte dst_a → is_byte an → spec_new_a dst_a an ≤ dst_a + an.
Proof.
  unfold is_byte, spec_new_a. intros Ha Hn.
  assert (0 ≤ (255 - dst_a) * (255 - an)) as Hp by nia.
  pose proof (div255_bounds _ Hp). nia.
Qed.

Lemma spec_channel_upper alpha opacity dst_a c src_c :
  is_byte alpha → is_byte opacity → is_byte dst_a → is_byte c → is_byte src_c →
  spec_channel c src_c dst_a (spec_an alpha opacity) ≤ Z.max c src_c.
Proof.
  intros Ha Ho Hd Hc Hs.
  pose proof (spec_an_byte _ _ Ha Ho) as Han.
  destruct (spec_new_a_bounds _ _ _ Ha Ho Hd) as [Hn1 Hn2].
  destruct (spec_aoni_bounds _ _ _ Ha Ho Hd) as [Hq1 Hq2].
  set (an := spec_an alpha opacity) in *.
  unfold spec_channel, is_byte in *.
  destruct (Z.eq_dec (spec_new_a dst_a an) 0) as [->|Hnz].
  - rewrite Z.div_0_r. lia.
  - apply Z.div_le_upper_bound; [lia|].
    assert (c * spec_aoni dst_a an ≤ Z.max c src_c * spec_aoni dst_a an) by nia.
    assert (src_c * an ≤ Z.max c src_c * an) by nia.
    assert (Z.max c src_c * (spec_aoni dst_a an + an)
            ≤ Z.max c src_c * spec_new_a dst_a an) by nia.
    lia.
Qed.

(** X11: a blend step never brightens a channel beyond the larger of the
    destination and the source value, and the alpha it leaves lies between
    the larger of the old alpha and the sample's coverage [an] and their
    sum capped at 255. *)
Theorem X11_blend_bounds (alpha r g b opacity : Z) (dst : pixel) :
  is_byte alpha → is_byte r → is_byte g → is_byte b → is_byte opacity →
  byte_pixel dst →
  d0 (blend alpha r g b opacity dst) ≤ Z.max (d0 dst) r ∧
  d1 (blend alpha r g b opacity dst) ≤ Z.max (d1 dst) g ∧
  d2 (blend alpha r g b opacity dst) ≤ Z.max (d2 dst) b ∧
  Z.max (d3 dst) (spec_an alpha opacity) ≤ d3 (blend alpha r g b opacity dst) ∧
  d3 (blend alpha r g b opacity dst) ≤ Z.min 255 (d3 dst + spec_an alpha opacity).
Proof.
  intros Ha Hr Hg Hb Ho Hdst. pose proof Hdst as (H0 & H1 & H2 & H3).
  pose proof (spec_an_byte _ _ Ha Ho) as Han.
  destruct (spec_new_a_bounds _ _ _ Ha Ho H3) as [Hn1 Hn2].
  pose proof (spec_new_a_upper _ _ H3 Han) as Hn3.
  pose proof (spec_channel_upper _ _ _ _ _ Ha Ho H3 H0 Hr).
  pose proof (spec_channel_upper _ _ _ _ _ Ha Ho H3 H1 Hg).
  pose proof (spec_channel_upper _ _ _ _ _ Ha Ho H3 H2 Hb).
  rewrite blend_spec_blend by done. unfold spec_blend.
  unfold is_byte in *.
  destruct (Z.eqb_spec (d3 dst) 0) as [Hz|Hnz]; simpl; [lia|].
  destruct (Z.eqb_spec (spec_new_a (d3 dst) (spec_an alpha opacity)) 0); simpl; lia.
Qed.

Lemma X11_blend_bounds_witness :
  d0 (blend 255 200 100 50 128 {| d0 := 10; d1 := 20; d2 := 30; d3 := 40 |})
  ≤ Z.max 10 200.
Proof.
  apply (X11_blend_bounds 255 200 100 50 128 {| d0 := 10; d1 := 20; d2 := 30; d3 := 40 |});
    unfold byte_pixel, is_byte; simpl; lia.
Defined.

(** ** What the rasterizer leaves alone *)

Lemma length_set_pixel m off px : length (set_pixel m off px) = length m.
Proof. unfold set_pixel. by rewrite !length_store. Qed.

Lemma length_draw_sample a r g b src src_off dst_off m x :
  length (draw_sample a r g b src src_off dst_off m x) = length m.
Proof.
  unfold draw_sample. destruct (_ =? 0); [done|]. apply length_set_pixel.
Qed.

Lemma length_draw_row a r g b p_img src_off dst_off m :
  length (draw_row a r g b p_img src_off dst_off m) = length m.
Proof.
  unfold draw_row. apply (foldl_invariant (λ m', length m' = length m)); [done|].
  intros m' x _ <-. apply length_draw_sample.
Qed.

Lemma length_draw_rows a r g b p_img i_pitch_dst dst_off m :
  length (draw_rows a r g b p_img i_pitch_dst dst_off m) = length m.
Proof.
  unfold draw_rows. apply (foldl_invariant (λ m', length m' = length m)); [done|].
  intros m' y _ <-. apply length_draw_row.
Qed.

Lemma length_draw_image p_region m p_img :
  length (draw_image p_region m p_img) = length m.
Proof.
  unfold draw_image. destruct (_ || _); [done|]. destruct (_ =? 0); [done|].
  apply length_draw_rows.
Qed.

Lemma length_memset m c n : length (memset m c n) = length m.
Proof. unfold memset. rewrite length_app, length_replicate, length_drop. lia. Qed.

Lemma length_RegionDraw_pixels p_region p_img :
  length (RegionDraw_pixels p_region p_img) = length (p_pixels (p0 (p_picture p_region))).
Proof.
  unfold RegionDraw_pixels.
  apply (foldl_invariant
           (λ m', length m' = length (p_pixels (p0 (p_picture p_region))))).
  - apply length_memset.
  - intros m' f _ <-. apply length_draw_image.
Qed.

Lemma load_set_pixel_other m off px p :
  p < off ∨ off + 3 < p → load (set_pixel m off px) p = load m p.
Proof.
  intros Hp. unfold set_pixel. rewrite !load_store_other by lia. done.
Qed.

Lemma draw_sample_frame a r g b src src_off dst_off m x p :
  p < dst_off + 4 * Z.of_nat x ∨ dst_off + 4 * Z.of_nat x + 3 < p →
  load (draw_sample a r g b src src_off dst_off m x) p = load m p.
Proof.
  intros Hp. unfold draw_sample. destruct (_ =? 0); [done|].
  by apply load_set_pixel_other.
Qed.

Lemma draw_row_frame a r g b p_img src_off dst_off m p :
  p < dst_off ∨ dst_off + 4 * w p_img ≤ p →
  load (draw_row a r g b p_img src_off dst_off m) p = load m p.
Proof.
  intros Hp. unfold draw_row.
  apply (foldl_invariant (λ m', load m' p = load m p)); [done|].
  intros m' x Hx <-. apply elem_of_seq in Hx.
  apply draw_sample_frame. lia.
Qed.

Lemma draw_rows_frame a r g b p_img i_pitch_dst dst_off m p :
  (∀ y, 0 ≤ y < h p_img →
     p < dst_off + y * i_pitch_dst ∨ dst_off + y * i_pitch_dst + 4 * w p_img ≤ p) →
  load (draw_rows a r g b p_img i_pitch_dst dst_off m) p = load m p.
Proof.
  intros Hp. unfold draw_rows.
  apply (foldl_invariant (λ m', load m' p = load m p)); [done|].
  intros m' y Hy <-. apply elem_of_seq in Hy.
  apply draw_row_frame. apply Hp. lia.
Qed.

(** Inside the picture the bounds test lets the fragment through. *)
Lemma draw_image_inside p_region m p_img :
  draw_in_range p_region p_img → fits_inside p_region p_img →
  draw_image p_region m p_img =
    let a := Z.land (Z.lxor (color p_img) 0xffffffff) 0xff in
    if a =? 0 then m
    else draw_rows a (Z.land (Z.shiftr (color p_img) 24) 0xff)
           (Z.land (Z.shiftr (color p_img) 16) 0xff)
           (Z.land (Z.shiftr (color p_img) 8) 0xff)
           p_img (i_pitch (p0 (p_picture p_region)))
           (int_add (int_mul (dst_y p_img - i_y p_region) (i_pitch (p0 (p_picture p_region))))
                    (int_mul 4 (dst_x p_img - i_x p_region))) m.
Proof.
  intros Hrange Hfits. unfold draw_image.
  unfold draw_in_range, draw_limit, INT_MAX in Hrange.
  unfold fits_inside in Hfits.
  assert (int_sub (dst_x p_img) (i_x p_region) = dst_x p_img - i_x p_region) as ->
    by (apply to_int_id; unfold INT_MIN, INT_MAX; lia).
  assert (int_sub (dst_y p_img) (i_y p_region) = dst_y p_img - i_y p_region) as ->
    by (apply to_int_id; unfold INT_MIN, INT_MAX; lia).
  assert (int_add (dst_x p_img - i_x p_region) (w p_img)
          = dst_x p_img - i_x p_region + w p_img) as ->
    by (apply to_int_id; unfold INT_MIN, INT_MAX; lia).
  assert (int_add (dst_y p_img - i_y p_region) (h p_img)
          = dst_y p_img - i_y p_region + h p_img) as ->
    by (apply to_int_id; unfold INT_MIN, INT_MAX; lia).
  rewrite (to_int_id (i_width _)) by (unfold INT_MIN, INT_MAX; lia).
  rewrite (to_int_id (i_height _)) by (unfold INT_MIN, INT_MAX; lia).
  destruct (Z.ltb_spec (dst_x p_img - i_x p_region) 0); [lia|].
  destruct (Z.ltb_spec (i_width (format (p_picture p_region)))
              (dst_x p_img - i_x p_region + w p_img)); [lia|].
  destruct (Z.ltb_spec (dst_y p_img - i_y p_region) 0); [lia|].
  destruct (Z.ltb_spec (i_height (format (p_picture p_region)))
              (dst_y p_img - i_y p_region + h p_img)); [lia|].
  done.
Qed.

Lemma draw_image_not_inside p_region m p_img :
  draw_in_range p_region p_img → ¬ fits_inside p_region p_img →
  draw_image p_region m p_img = m.
Proof.
  intros Hrange Hout. apply draw_image_outside.
  unfold draw_in_range, draw_limit, INT_MAX in Hrange.
  unfold fits_inside in Hout. unfold int_sub, int_add.
  rewrite (to_int_id (i_width _)) by (unfold INT_MIN, INT_MAX; lia).
  rewrite (to_int_id (i_height _)) by (unfold INT_MIN, INT_MAX; lia).
  rewrite (to_int_id (dst_x p_img - i_x p_region)) by (unfold INT_MIN, INT_MAX; lia).
  rewrite (to_int_id (dst_y p_img - i_y p_region)) by (unfold INT_MIN, INT_MAX; lia).
  rewrite !(to_int_id (_ + _)) by (unfold INT_MIN, INT_MAX; lia).
  lia.
Qed.

(** X12: drawing a fragment changes no byte of a pixel that lies outside the
    fragment's rectangle: for a picture whose pitch holds its width, every
    pixel [(X, Y)] of the picture not in the rectangle keeps its four
    bytes. *)
Theorem X12_draw_leaves_other_pixels (p_region : subpicture_region_t)
    (m : list Z) (p_img : ASS_Image) (X Y c : Z) :
  draw_in_range p_region p_img → picture_geometry_ok p_region →
  0 ≤ X < i_width (format (p_picture p_region)) → 0 ≤ Y → 0 ≤ c ≤ 3 →
  ¬ in_fragment p_region p_img X Y →
  load (draw_image p_region m p_img)
       (Y * i_pitch (p0 (p_picture p_region)) + 4 * X + c)
  = load m (Y * i_pitch (p0 (p_picture p_region)) + 4 * X + c).
Proof.
  intros Hrange Hgeo HX HY Hc Hout.
  assert (fits_inside p_region p_img ∨ ¬ fits_inside p_region p_img) as [Hfits|Hnot]
    by (unfold fits_inside; lia).
  2:{ by rewrite draw_image_not_inside. }
  rewrite draw_image_inside by done. cbv zeta.
  destruct (_ =? 0); [done|].
  apply draw_rows_frame. intros y Hy.
  unfold picture_geometry_ok in Hgeo. cbv zeta in Hgeo.
  unfold fits_inside in Hfits. unfold in_fragment in Hout.
  set (pitch := i_pitch (p0 (p_picture p_region))) in *.
  set (dx := dst_x p_img - i_x p_region) in *.
  set (dy := dst_y p_img - i_y p_region) in *.
  set (width := i_width (format (p_picture p_region))) in *.
  set (height := i_height (format (p_picture p_region))) in *.
  destruct (Z.le_gt_cases (w p_img) 0) as [Hw0|Hw0]; [lia|].
  assert (0 ≤ dy * pitch ≤ (height - 1) * pitch) as Hdy by nia.
  assert (int_add (int_mul dy pitch) (int_mul 4 dx) = dy * pitch + 4 * dx) as ->.
  { unfold int_add, int_mul.
    rewrite (to_int_id (dy * pitch)) by (unfold INT_MIN, INT_MAX in *; lia).
    rewrite (to_int_id (4 * dx)) by (unfold INT_MIN, INT_MAX in *; lia).
    apply to_int_id. unfold INT_MIN, INT_MAX in *. lia. }
  destruct (Z.lt_trichotomy Y (dy + y)) as [Hlt|[Heq|Hgt]].
  - left. assert (0 ≤ (dy + y - Y - 1) * pitch) by nia. lia.
  - subst Y. lia.
  - right. assert (0 ≤ (Y - dy - y - 1) * pitch) by nia. lia.
Qed.

Lemma X12_draw_leaves_other_pixels_witness :
  load (draw_image (picture_region 0 0 4 2 (replicate 32 7)) (replicate 32 7)
          (fragment_at 1 0 2 1)) (1 * 16 + 4 * 1 + 3)
  = load (replicate 32 7) (1 * 16 + 4 * 1 + 3).
Proof.
  apply (X12_draw_leaves_other_pixels (picture_region 0 0 4 2 (replicate 32 7))
           (replicate 32 7) (fragment_at 1 0 2 1) 1 1 3).
  - unfold draw_in_range, draw_limit, INT_MAX. simpl. lia.
  - unfold picture_geometry_ok, INT_MAX. simpl. lia.
  - simpl. lia.
  - lia.
  - lia.
  - unfold in_fragment. simpl. lia.
Defined.

Lemma memset_whole m n :
  Z.of_nat (length m) ≤ n → memset m 0 n = replicate (length m) 0.
Proof.
  intros Hn. unfold memset.
  rewrite drop_ge by lia. rewrite app_nil_r. f_equal. lia.
Qed.

Lemma RegionDraw_pixels_whole p_region p_img :
  buffer_is_whole p_region →
  RegionDraw_pixels p_region p_img
  = foldl (draw_image p_region)
          (replicate (length (p_pixels (p0 (p_picture p_region)))) 0) p_img.
Proof.
  intros [Hsize Hlen]. unfold RegionDraw_pixels.
  rewrite memset_whole; [done|].
  unfold int_mul. rewrite to_int_id by (unfold INT_MIN, INT_MAX in *; lia). lia.
Qed.

Lemma draw_image_RegionDraw p_region p_img :
  draw_image (RegionDraw p_region p_img) = draw_image p_region.
Proof. reflexivity. Qed.

(** X13: a pass starts from a cleared picture, so nothing of the previous
    contents survives: the result is the fragments drawn on an all-zero
    buffer, and drawing the same fragments again on the result gives the
    same region. *)
Theorem X13_RegionDraw_idempotent (p_region : subpicture_region_t)
    (p_img : list ASS_Image) :
  buffer_is_whole p_region →
  RegionDraw_pixels p_region p_img
  = foldl (draw_image p_region)
          (replicate (length (p_pixels (p0 (p_picture p_region)))) 0) p_img ∧
  RegionDraw (RegionDraw p_region p_img) p_img = RegionDraw p_region p_img.
Proof.
  intros Hwhole. split; [by apply RegionDraw_pixels_whole|].
  assert (buffer_is_whole (RegionDraw p_region p_img)) as Hwhole'.
  { destruct Hwhole as [Hsize Hlen]. split; simpl; [done|].
    by rewrite length_RegionDraw_pixels. }
  unfold RegionDraw at 1. f_equal. simpl. f_equal. f_equal.
  rewrite (RegionDraw_pixels_whole (RegionDraw p_region p_img)) by done.
  rewrite draw_image_RegionDraw. simpl.
  rewrite length_RegionDraw_pixels.
  by rewrite <- RegionDraw_pixels_whole.
Qed.

Lemma X13_RegionDraw_idempotent_witness :
  RegionDraw (RegionDraw (picture_region 0 0 2 1 [9; 9; 9; 9; 9; 9; 9; 9])
                [scenario_A_fragment]) [scenario_A_fragment]
  = RegionDraw (picture_region 0 0 2 1 [9; 9; 9; 9; 9; 9; 9; 9]) [scenario_A_fragment].
Proof.
  apply (X13_RegionDraw_idempotent (picture_region 0 0 2 1 [9; 9; 9; 9; 9; 9; 9; 9])
           [scenario_A_fragment]).
  unfold buffer_is_whole, INT_MAX. simpl. lia.
Defined.

(** X14: a fragment of positive size whose bounding box lies within a
    region's rectangle is never turned away by the bounds test of the region
    set up for that rectangle: it fits inside the picture and is drawn
    unless its alpha is zero. *)
Theorem X14_covered_fragment_is_drawn (rg : rectangle_t)
    (p_region : subpicture_region_t) (f : ASS_Image) (m : list Z) :
  well_bounded rg → in_canvas f → positive_size f = true →
  contains rg (bounding_box f) → region_for rg p_region →
  fits_inside p_region f ∧
  draw_image p_region m f =
    let a := Z.land (Z.lxor (color f) 0xffffffff) 0xff in
    if a =? 0 then m
    else draw_rows a (Z.land (Z.shiftr (color f) 24) 0xff)
           (Z.land (Z.shiftr (color f) 16) 0xff)
           (Z.land (Z.shiftr (color f) 8) 0xff)
           f (i_pitch (p0 (p_picture p_region)))
           (int_add (int_mul (dst_y f - i_y p_region) (i_pitch (p0 (p_picture p_region))))
                    (int_mul 4 (dst_x f - i_x p_region))) m.
Proof.
  intros Hwb Hcanvas Hpos Hcov (Hx & Hy & Hw & Hh).
  unfold well_bounded, coord_limit in Hwb. unfold in_canvas, coord_limit in Hcanvas.
  unfold contains, bounding_box in Hcov. simpl in Hcov.
  unfold positive_size in Hpos. apply andb_true_iff in Hpos as [Hpw Hph].
  apply Z.ltb_lt in Hpw, Hph.
  assert (i_width (format (p_picture p_region)) = x1 rg - x0 rg) as Hw'.
  { rewrite Hw. unfold int_sub.
    rewrite to_int_id by (unfold INT_MIN, INT_MAX; lia).
    apply to_unsigned_id. lia. }
  assert (i_height (format (p_picture p_region)) = y1 rg - y0 rg) as Hh'.
  { rewrite Hh. unfold int_sub.
    rewrite to_int_id by (unfold INT_MIN, INT_MAX; lia).
    apply to_unsigned_id. lia. }
  assert (fits_inside p_region f) as Hfits.
  { unfold fits_inside. rewrite Hx, Hy, Hw', Hh'. lia. }
  split; [done|]. apply draw_image_inside; [|done].
  unfold draw_in_range, draw_limit, INT_MAX. rewrite Hx, Hy, Hw', Hh'. lia.
Qed.

Lemma X14_covered_fragment_is_drawn_witness :
  fits_inside (picture_region 0 0 210 10 []) (fragment_at 200 0 10 10).
Proof.
  apply (X14_covered_fragment_is_drawn (r_create 0 0 210 10)
           (picture_region 0 0 210 10 []) (fragment_at 200 0 10 10) []).
  - unfold well_bounded, coord_limit. simpl. lia.
  - unfold in_canvas, coord_limit. simpl. lia.
  - reflexivity.
  - unfold contains. simpl. lia.
  - unfold region_for. simpl. by vm_compute.
Defined.

(** ** The update as a whole *)

Lemma SubpictureUpdate_rendered E p_renderer i_pts p_subpic cfg :
  SubpictureUpdate E p_renderer i_pts p_subpic cfg =
    let '(rd2, p_img, i_changed) := rendered E p_renderer i_pts p_subpic cfg in
    if (i_changed =? 0) &&
       negb (negb (i_visible_width (video_src cfg) =? i_visible_width (prev_src cfg)) ||
             negb (i_visible_height (video_src cfg) =? i_visible_height (prev_src cfg))) &&
       negb (negb (video_format_IsSimilar E (prev_dst cfg) (video_dst cfg))) &&
       eqb (negb (bool_decide (p_img = [])))
           (negb (bool_decide (regions p_subpic = [])))
    then Some (rd2, p_subpic)
    else
      match BuildRegions (pp_img_calloc_ok E) 4 p_img
              (to_int (i_width (video_dst cfg))) (to_int (i_height (video_dst cfg))) with
      | Done regs =>
          Some (rd2,
                {| regions :=
                     draw_regions E
                       {| i_chroma := VLC_CODEC_RGBA E;
                          i_width := i_width (video_dst cfg);
                          i_height := i_height (video_dst cfg);
                          i_x_offset := 0; i_y_offset := 0;
                          i_visible_width := i_visible_width (video_dst cfg);
                          i_visible_height := i_visible_height (video_dst cfg) |}
                       regs p_img;
                   i_original_picture_width := i_visible_width (video_dst cfg);
                   i_original_picture_height := i_visible_height (video_dst cfg);
                   i_start := i_start p_subpic |})
      | _ => None
      end.
Proof. reflexivity. Qed.

Lemma BuildRegions_nil calloc_ok i_max_region W H :
  BuildRegions calloc_ok i_max_region [] W H = Done [].
Proof. reflexivity. Qed.

(** X15: whenever the renderer has no fragment for the frame, the subpicture
    is left without regions: either the pass is skipped because there were
    none before, or the old regions are cleared and none is built. *)
Theorem X15_no_fragment_no_region (E : externals) (p_renderer : ASS_Renderer E)
    (i_pts : Z) (p_subpic : subpicture_t) (cfg : vlc_spu_updater_configuration) :
  (rendered E p_renderer i_pts p_subpic cfg).1.2 = [] →
  ∃ p_subpic',
    SubpictureUpdate E p_renderer i_pts p_subpic cfg
    = Some ((rendered E p_renderer i_pts p_subpic cfg).1.1, p_subpic') ∧
    regions p_subpic' = [].
Proof.
  intros Hempty. rewrite SubpictureUpdate_rendered.
  destruct (rendered E p_renderer i_pts p_subpic cfg) as [[rd2 p_img] i_changed].
  simpl in Hempty. subst p_img. simpl.
  destruct (_ && _ && _ && _) eqn:Hskip.
  - exists p_subpic. split; [done|].
    apply andb_true_iff in Hskip as [_ Hsame].
    destruct (decide (regions p_subpic = [])) as [Hnil|Hne]; [done|].
    rewrite (bool_decide_eq_false_2 _ Hne) in Hsame. by compute in Hsame.
  - rewrite ?BuildRegions_nil. eexists. split; [done|]. done.
Qed.

Lemma X15_no_fragment_no_region_witness :
  ∃ p_subpic',
    SubpictureUpdate blank_externals () 0 sample_subpicture sample_cfg
    = Some ((), p_subpic') ∧ regions p_subpic' = [].
Proof.
  apply (X15_no_fragment_no_region blank_externals () 0 sample_subpicture sample_cfg).
  reflexivity.
Defined.






(** ** The decoder *)

Lemma DecodeBlock_stop E K malloc_ok spu_ok p_sys blk :
  Z.land (i_flags blk) (BLOCK_FLAG_CORRUPTED K) = 0 →
  i_max_stop p_sys ≤ i_max_stop (DecodeBlock E K malloc_ok spu_ok p_sys (Some blk)).1 ∧
  ∀ q, (DecodeBlock E K malloc_ok spu_ok p_sys (Some blk)).2 = Some q →
       spu_stop q = i_max_stop (DecodeBlock E K malloc_ok spu_ok p_sys (Some blk)).1.
Proof.
  intros Hflags. unfold DecodeBlock. rewrite Hflags. simpl.
  destruct (_ || _); simpl; [split; [lia|done]|].
  destruct (i_pts blk =? i_last_pts p_sys); simpl; [split; [lia|done]|].
  destruct malloc_ok; simpl; [|split; [lia|done]].
  destruct spu_ok; simpl; [|split; [lia|done]].
  unfold MAX.
  destruct (Z.ltb_spec (to_int64 (i_pts blk + i_length blk)) (i_max_stop p_sys));
    (split; [lia|]); by intros q [= <-].
Qed.

(** X17: between two corrupted blocks the stop times never go back: the
    subpictures queued for a run of blocks have non-decreasing [i_stop], all
    of them between the [i_max_stop] before and after the run. *)
Theorem X17_stop_times_never_go_back (E : externals) (K : decoder_constants)
    (p_sys : decoder_sys_t) (blocks : list (bool * bool * block_t)) :
  Forall (λ b, Z.land (i_flags b.2) (BLOCK_FLAG_CORRUPTED K) = 0) blocks →
  (∀ i j qi qj, (i < j)%nat →
     (DecodeBlocks E K p_sys blocks).2 !! i = Some qi →
     (DecodeBlocks E K p_sys blocks).2 !! j = Some qj →
     spu_stop qi ≤ spu_stop qj) ∧
  Forall (λ q, i_max_stop p_sys ≤ spu_stop q
               ≤ i_max_stop (DecodeBlocks E K p_sys blocks).1)
         (DecodeBlocks E K p_sys blocks).2 ∧
  i_max_stop p_sys ≤ i_max_stop (DecodeBlocks E K p_sys blocks).1.
Proof.
  revert p_sys. induction blocks as [|[[malloc_ok spu_ok] blk] blocks IH];
    intros p_sys Hok.
  { simpl. split; [by intros i j qi qj _ ?|]. split; [constructor|lia]. }
  apply Forall_cons in Hok as [Hblk Hrest]. simpl in Hblk.
  destruct (DecodeBlock_stop E K malloc_ok spu_ok p_sys blk Hblk) as [Hmono Hq].
  cbn [DecodeBlocks].
  destruct (DecodeBlock E K malloc_ok spu_ok p_sys (Some blk)) as [sys1 queued].
  specialize (IH sys1 Hrest).
  destruct (DecodeBlocks E K sys1 blocks) as [sys2 more].
  simpl in *. destruct IH as (Hsorted & Hbounds & Hmono2).
  assert (Forall (λ q, i_max_stop p_sys ≤ spu_stop q ≤ i_max_stop sys2) more) as Hmore.
  { eapply Forall_impl; [exact Hbounds|]. simpl. intros q. lia. }
  destruct queued as [q|]; simpl.
  - specialize (Hq q eq_refl).
    split; [|split; [|lia]].
    + intros i j qi qj Hij Hi Hj. destruct j as [|j]; [lia|]. simpl in Hj.
      destruct i as [|i]; simpl in Hi.
      * simplify_eq.
        pose proof (Forall_lookup_1 _ _ _ _ Hbounds Hj) as Hb. simpl in Hb. lia.
      * apply (Hsorted i j); [lia|done..].
    + constructor; [lia|done].
  - split; [done|]. split; [done|lia].
Qed.

Lemma X17_stop_times_never_go_back_witness :
  0 ≤ i_max_stop (DecodeBlocks still_externals sample_constants sample_sys
                    [(true, true, sample_block 1000 5000);
                     (true, true, sample_block 2000 100)]).1.
Proof.
  apply (X17_stop_times_never_go_back still_externals sample_constants sample_sys
           [(true, true, sample_block 1000 5000); (true, true, sample_block 2000 100)]).
  repeat constructor.
Defined.

(** X18: once a block has had its subpicture queued, a following block with
    the same [i_pts] queues none, takes no reference and leaves [i_max_stop]
    alone, whatever its contents. *)
Theorem X18_one_subpicture_per_pts (E : externals) (K : decoder_constants)
    (malloc_ok spu_ok malloc_ok' spu_ok' : bool)
    (p_sys sys1 : decoder_sys_t) (blk blk' : block_t) (q : queued_subpicture) :
  DecodeBlock E K malloc_ok spu_ok p_sys (Some blk) = (sys1, Some q) →
  i_pts blk' = i_pts blk →
  Z.land (i_flags blk') (BLOCK_FLAG_CORRUPTED K) = 0 →
  (DecodeBlock E K malloc_ok' spu_ok' sys1 (Some blk')).2 = None ∧
  i_refcount (DecodeBlock E K malloc_ok' spu_ok' sys1 (Some blk')).1 = i_refcount sys1 ∧
  i_max_stop (DecodeBlock E K malloc_ok' spu_ok' sys1 (Some blk')).1 = i_max_stop sys1.
Proof.
  intros Hfirst Hpts Hflags.
  assert (i_last_pts sys1 = i_pts blk) as Hlast.
  { unfold DecodeBlock in Hfirst.
    destruct (negb _); [done|]. destruct (_ || _); [done|].
    destruct (negb (i_pts blk =? i_last_pts p_sys)); [|done].
    destruct (negb malloc_ok); [done|]. destruct (negb spu_ok); [done|].
    by simplify_eq. }
  unfold DecodeBlock. rewrite Hflags. simpl.
  destruct (_ || _); [done|].
  rewrite Hpts, Hlast, Z.eqb_refl. done.
Qed.

Lemma X18_one_subpicture_per_pts_witness :
  (DecodeBlock still_externals sample_constants true true
     (DecodeBlock still_externals sample_constants true true sample_sys
        (Some (sample_block 1000 5000))).1
     (Some (sample_block 1000 70))).2 = None.
Proof.
  refine (proj1 (X18_one_subpicture_per_pts still_externals sample_constants
                   true true true true sample_sys _ (sample_block 1000 5000)
                   (sample_block 1000 70) _ _ _ _));
    reflexivity.
Defined.

Lemma DecodeBlock_refcount E K malloc_ok spu_ok p_sys p_block :
  i_refcount p_sys < INT_MAX → INT_MIN ≤ i_refcount p_sys →
  i_refcount (DecodeBlock E K malloc_ok spu_ok p_sys p_block).1
  = i_refcount p_sys
    + match (DecodeBlock E K malloc_ok spu_ok p_sys p_block).2 with
      | Some _ => 1 | None => 0 end.
Proof.
  intros Hhi Hlo. unfold DecodeBlock.
  destruct p_block as [blk|]; simpl; [|lia].
  destruct (negb _); simpl; [lia|]. destruct (_ || _); simpl; [lia|].
  destruct (negb (i_pts blk =? i_last_pts p_sys)); simpl; [|lia].
  destruct (negb malloc_ok); simpl; [lia|]. destruct (negb spu_ok); simpl; [lia|].
  unfold int_add. apply to_int_id. lia.
Qed.

(** X19: the decoder takes exactly one reference for every subpicture it
    queues: after a run of blocks the count has grown by the number of
    subpictures queued. *)
Theorem X19_one_reference_per_subpicture (E : externals) (K : decoder_constants)
    (p_sys : decoder_sys_t) (blocks : list (bool * bool * block_t)) :
  1 ≤ i_refcount p_sys →
  i_refcount p_sys + Z.of_nat (length blocks) ≤ INT_MAX →
  i_refcount (DecodeBlocks E K p_sys blocks).1
  = i_refcount p_sys + Z.of_nat (length (DecodeBlocks E K p_sys blocks).2).
Proof.
  revert p_sys. induction blocks as [|[[malloc_ok spu_ok] blk] blocks IH];
    intros p_sys Hlo Hhi.
  { simpl. lia. }
  simpl in Hhi.
  pose proof (DecodeBlock_refcount E K malloc_ok spu_ok p_sys (Some blk)) as Hstep.
  cbn [DecodeBlocks].
  destruct (DecodeBlock E K malloc_ok spu_ok p_sys (Some blk)) as [sys1 queued].
  simpl in Hstep.
  specialize (Hstep ltac:(lia) ltac:(unfold INT_MIN; lia)).
  specialize (IH sys1).
  destruct (DecodeBlocks E K sys1 blocks) as [sys2 more]. simpl in *.
  destruct queued; simpl; rewrite IH; lia.
Qed.

Lemma X19_one_reference_per_subpicture_witness :
  i_refcount (DecodeBlocks still_externals sample_constants sample_sys
                [(true, true, sample_block 1000 5000);
                 (true, false, sample_block 2000 100)]).1
  = 1 + Z.of_nat (length (DecodeBlocks still_externals sample_constants sample_sys
                            [(true, true, sample_block 1000 5000);
                             (true, false, sample_block 2000 100)]).2).
Proof.
  apply (X19_one_reference_per_subpicture still_externals sample_constants sample_sys
           [(true, true, sample_block 1000 5000); (true, false, sample_block 2000 100)]).
  - simpl. lia.
  - unfold INT_MAX. simpl. lia.
Defined.

Lemma with_refcount_same p_sys : with_refcount p_sys (i_refcount p_sys) = p_sys.
Proof. by destruct p_sys. Qed.

Lemma DecSysRelease_last p_sys :
  i_refcount p_sys = 1 → DecSysRelease p_sys = inr (teardown_calls p_sys).
Proof. intros Hone. unfold DecSysRelease. by rewrite Hone. Qed.

Lemma DecSysRelease_shared p_sys :
  2 ≤ i_refcount p_sys ≤ INT_MAX →
  DecSysRelease p_sys = inl (with_refcount p_sys (i_refcount p_sys - 1)).
Proof.
  intros Hcount. unfold DecSysRelease, int_sub.
  rewrite to_int_id by (unfold INT_MIN, INT_MAX in *; lia).
  by destruct (Z.ltb_spec 0 (i_refcount p_sys - 1)); [|lia].
Qed.

Lemma release_times_S n p_sys :
  release_times (S n) p_sys =
    match DecSysRelease p_sys with
    | inl p_sys' => release_times n p_sys'
    | inr calls => inr calls
    end.
Proof. reflexivity. Qed.

(** X20: a state that holds [n + 1] references survives [n] releases with a
    count of one and is torn down by the release after them, which hands
    back the track, the renderer and the library, in this order, each only
    if it is there, and then the state.  A hold followed by a release
    changes nothing. *)
Theorem X20_last_release_tears_down (p_sys : decoder_sys_t) (n : nat) :
  i_refcount p_sys = Z.of_nat (S n) → i_refcount p_sys < INT_MAX →
  release_times n p_sys = inl (with_refcount p_sys 1) ∧
  release_times (S n) p_sys = inr (teardown_calls p_sys) ∧
  DecSysRelease (DecSysHold p_sys) = inl p_sys.
Proof.
  intros Hcount Hmax. split; [|split].
  - revert p_sys Hcount Hmax. induction n as [|n IH]; intros p_sys Hcount Hmax.
    + simpl. f_equal. rewrite <- (with_refcount_same p_sys) at 1. by rewrite Hcount.
    + rewrite release_times_S, DecSysRelease_shared by lia.
      rewrite IH; [done| |]; simpl; lia.
  - revert p_sys Hcount Hmax. induction n as [|n IH]; intros p_sys Hcount Hmax.
    + rewrite release_times_S. by rewrite DecSysRelease_last by lia.
    + rewrite release_times_S, DecSysRelease_shared by lia.
      rewrite IH; [done| |]; simpl; lia.
  - rewrite DecSysRelease_shared.
    + simpl. unfold int_add. rewrite to_int_id by (unfold INT_MIN, INT_MAX in *; lia).
      replace (i_refcount p_sys + 1 - 1) with (i_refcount p_sys) by lia.
      by destruct p_sys.
    + simpl. unfold int_add. rewrite to_int_id by (unfold INT_MIN, INT_MAX in *; lia).
      lia.
Qed.

Lemma X20_last_release_tears_down_witness :
  release_times 3 (with_refcount sample_sys 3)
  = inr [ass_free_track; ass_renderer_done; ass_library_done; free_sys].
Proof.
  refine (proj1 (proj2 (X20_last_release_tears_down (with_refcount sample_sys 3) 2 _ _)));
    [reflexivity|unfold INT_MAX; simpl; lia].
Defined.

(** X21: a missing block, a corrupted block, an empty one and one whose
    buffer starts with a NUL byte queue nothing, take no reference and are
    never fed to the track; but for the corrupted one, which resets the two
    time stamps, the state is left as it was. *)
Theorem X21_unusable_block_is_dropped (E : externals) (K : decoder_constants)
    (malloc_ok spu_ok : bool) (p_sys : decoder_sys_t) (blk : block_t) :
  ¬ usable_block K blk →
  DecodeBlock E K malloc_ok spu_ok p_sys None = (p_sys, None) ∧
  (DecodeBlock E K malloc_ok spu_ok p_sys (Some blk)).2 = None ∧
  p_track (DecodeBlock E K malloc_ok spu_ok p_sys (Some blk)).1 = p_track p_sys ∧
  i_refcount (DecodeBlock E K malloc_ok spu_ok p_sys (Some blk)).1 = i_refcount p_sys ∧
  (Z.land (i_flags blk) (BLOCK_FLAG_CORRUPTED K) = 0 →
   DecodeBlock E K malloc_ok spu_ok p_sys (Some blk) = (p_sys, None)) ∧
  (Z.land (i_flags blk) (BLOCK_FLAG_CORRUPTED K) ≠ 0 →
   DecodeBlock E K malloc_ok spu_ok p_sys (Some blk) = (Flush K p_sys, None)).
Proof.
  intros Hbad. split; [done|]. unfold DecodeBlock.
  destruct (Z.eqb_spec (Z.land (i_flags blk) (BLOCK_FLAG_CORRUPTED K)) 0) as [Hf|Hf]; simpl.
  2:{ split; [done|]. split; [done|]. split; [done|]. split; done. }
  destruct (Z.eqb_spec (i_buffer blk) 0) as [Hb|Hb]; simpl.
  { split; [done|]. split; [done|]. split; [done|]. split; done. }
  destruct (Z.eqb_spec (load (p_buffer blk) 0) 0) as [Hl|Hl]; simpl.
  { split; [done|]. split; [done|]. split; [done|]. split; done. }
  exfalso. apply Hbad. by split.
Qed.

Lemma X21_unusable_block_is_dropped_witness :
  (DecodeBlock still_externals sample_constants true true sample_sys
     (Some {| i_flags := 0; p_buffer := [0; 49]; i_buffer := 2;
              i_pts := 5; i_length := 1 |})).2 = None.
Proof.
  refine (proj1 (proj2 (X21_unusable_block_is_dropped still_externals sample_constants
                          true true sample_sys
                          {| i_flags := 0; p_buffer := [0; 49]; i_buffer := 2;
                             i_pts := 5; i_length := 1 |} _))).
  intros (_ & _ & Hnul). by apply Hnul.
Defined.

(** ** The script-info patch *)

Lemma has_prefix_inv lit s :
  has_prefix lit s = true → ∃ t, s = String.append lit t.
Proof.
  unfold has_prefix. revert s. induction lit as [|a lit IH]; intros s Hs.
  { by exists s. }
  destruct s as [|c s]; simpl in Hs; [done|].
  destruct (Ascii.ascii_dec a c) as [->|]; [|done].
  destruct (IH s Hs) as [t ->]. by exists t.
Qed.

(** A line that declares the layout resolution or the border scaling is not
    a section header and not one of the lines tested before it. *)
Lemma declaring_line_tests l :
  has_prefix "LayoutRes" l = true ∨ has_prefix "ScaledBorderAndShadow:" l = true →
  (char_at l 0 =? 91) = false ∧
  has_prefix "PlayResX: " l || has_prefix "PlayResY: " l = false ∧
  has_prefix "Original Script: " l = false.
Proof.
  intros [Hl|Hl]; apply has_prefix_inv in Hl as [t ->]; done.
Qed.

Lemma script_info_loop_declared atoi pre l post playres b_hotfix :
  Forall (λ s, char_at s 0 ≠ 91) pre →
  has_prefix "LayoutRes" l = true ∨ has_prefix "ScaledBorderAndShadow:" l = true →
  (script_info_loop atoi (pre ++ l :: post) playres b_hotfix).2 = false.
Proof.
  intros Hpre Hl. revert playres b_hotfix.
  induction pre as [|s pre IH]; intros playres b_hotfix.
  - destruct (declaring_line_tests l Hl) as (H0 & H1 & H2).
    cbn [app script_info_loop]. rewrite H0, H1, H2.
    assert (has_prefix "LayoutRes" l || has_prefix "ScaledBorderAndShadow:" l = true) as ->
      by (apply orb_true_iff; done).
    done.
  - apply Forall_cons in Hpre as [Hs Hpre].
    change ((s :: pre) ++ l :: post) with (s :: (pre ++ l :: post)).
    cbn [script_info_loop].
    destruct (Z.eqb_spec (char_at s 0) 91) as [|_]; [done|].
    destruct (_ || _); [by apply IH|].
    destruct (has_prefix "Original Script: " s).
    { destruct (strstr_found s crunchyroll_marker); [by apply IH|done]. }
    destruct (_ || _); [done|]. by apply IH.
Qed.

(** X22: extradata that declares [LayoutRes...] or [ScaledBorderAndShadow:]
    in its script-info section, that is before any line that opens another
    section, is never patched, whatever else it holds. *)
Theorem X22_declared_script_is_not_patched (atoi : string → Z) (i_extra : Z)
    (first : string) (pre : list string) (l : string) (post : list string) :
  Forall (λ s, char_at s 0 ≠ 91) pre →
  has_prefix "LayoutRes" l = true ∨ has_prefix "ScaledBorderAndShadow:" l = true →
  OldEngineClunkyRollInfoPatch atoi i_extra (first :: pre ++ l :: post) = None.
Proof.
  intros Hpre Hl. unfold OldEngineClunkyRollInfoPatch.
  destruct (i_extra =? 0); [done|].
  destruct (has_prefix "[Script Info]" first); [|done].
  pose proof (script_info_loop_declared atoi pre l post (0, 0) false Hpre Hl) as Hloop.
  destruct (script_info_loop atoi (pre ++ l :: post) (0, 0) false) as [playres b_hotfix].
  simpl in Hloop. by rewrite Hloop.
Qed.

Lemma X22_declared_script_is_not_patched_witness :
  OldEngineClunkyRollInfoPatch sample_atoi 100
    ("[Script Info]"
     :: ["Original Script: cr  [http://www.crunchyroll.com/user/cr]"; "PlayResX: 640"]
     ++ "ScaledBorderAndShadow: yes" :: ["PlayResY: 360"]) = None.
Proof.
  apply (X22_declared_script_is_not_patched sample_atoi 100 "[Script Info]"
           ["Original Script: cr  [http://www.crunchyroll.com/user/cr]"; "PlayResX: 640"]
           "ScaledBorderAndShadow: yes" ["PlayResY: 360"]).
  - repeat constructor; by vm_compute.
  - by right.
Defined.





(** ** Font attachments *)

Lemma string_length_append a b :
  String.length (String.append a b) = (String.length a + String.length b)%nat.
Proof. induction a as [|c a IH]; simpl; [done|]. by rewrite IH. Qed.

Lemma string_from_append a b : string_from (String.length a) (String.append a b) = b.
Proof. induction a as [|c a IH]; simpl; [by destruct b|done]. Qed.

(** X24: an attachment whose name is longer than four characters and ends,
    in any letter case, in [.ttf], [.otf] or [.ttc] is loaded as a font
    whatever its MIME type; a name of four characters or fewer, such as a
    bare [.ttf], is loaded only if the MIME type is that of a TrueType
    font. *)
Theorem X24_font_by_extension (tolower : Ascii.ascii → Ascii.ascii)
    (psz_mime stem ext psz_name : string) :
  stem ≠ EmptyString → String.length ext = 4%nat →
  strcasecmp_equal tolower ext ".ttf" = true ∨
  strcasecmp_equal tolower ext ".otf" = true ∨
  strcasecmp_equal tolower ext ".ttc" = true →
  (String.length psz_name ≤ 4)%nat →
  is_font_attachment tolower psz_mime (String.append stem ext) = true ∧
  is_font_attachment tolower psz_mime psz_name
  = strcasecmp_equal tolower psz_mime "application/x-truetype-font".
Proof.
  intros Hstem Hlen Hext Hshort. unfold is_font_attachment. split.
  - destruct (strcasecmp_equal tolower psz_mime _); [done|].
    rewrite string_length_append, Hlen.
    assert (String.length stem ≠ 0)%nat as Hpos by (by destruct stem).
    destruct (Nat.ltb_spec 4 (String.length stem + 4)); [|lia].
    replace (String.length stem + 4 - 4)%nat with (String.length stem) by lia.
    rewrite string_from_append.
    destruct Hext as [->|[->| ->]]; by rewrite ?orb_true_r.
  - destruct (strcasecmp_equal tolower psz_mime _); [done|].
    by destruct (Nat.ltb_spec 4 (String.length psz_name)); [lia|].
Qed.

Lemma X24_font_by_extension_witness :
  is_font_attachment ascii_tolower "application/octet-stream"
    (String.append "Arial" ".TTF") = true.
Proof.
  refine (proj1 (X24_font_by_extension ascii_tolower "application/octet-stream"
                   "Arial" ".TTF" ".ttf" _ _ _ _)).
  - discriminate.
  - reflexivity.
  - left. reflexivity.
  - simpl. lia.
Defined.

(** ** The fuzzer harness *)

Lemma strstr_unfold s needle :
  strstr s needle =
    if String.prefix needle s then Some s
    else match s with
         | EmptyString => None
         | String _ s' => strstr s' needle
         end.
Proof. by destruct s. Qed.

Lemma strstr_inv s needle t :
  strstr s needle = Some t →
  ∃ pre, s = String.append pre t ∧ String.prefix needle t = true.
Proof.
  revert t. induction s as [|c s IH]; intros t Hs; rewrite strstr_unfold in Hs.
  - destruct (String.prefix needle EmptyString) eqn:Hp; [|done].
    simplify_eq. by exists EmptyString.
  - destruct (String.prefix needle (String c s)) eqn:Hp.
    + simplify_eq. by exists EmptyString.
    + destruct (IH t Hs) as (pre & -> & Hpre). by exists (String c pre).
Qed.

(** X25: a name already chosen is kept.  Otherwise a target is taken from
    the program name only when the name holds [-libfuzzer-]: the target is
    what follows it.  When the first [-libfuzzer] of the name is not
    followed by a dash, or there is none, no target is set. *)
Theorem X25_fuzzer_target_follows_suffix (args_name : option string)
    (name target : string) :
  (is_Some args_name → LLVMFuzzerInitialize_name args_name name = args_name) ∧
  (LLVMFuzzerInitialize_name None name = Some target →
   ∃ pre, name = String.append pre (String.append "-libfuzzer-" target)) ∧
  (strstr name "-libfuzzer" = None → LLVMFuzzerInitialize_name None name = None).
Proof.
  split; [|split].
  - by intros [n ->].
  - unfold LLVMFuzzerInitialize_name.
    destruct (strstr name "-libfuzzer") as [t|] eqn:Hfound; [|done].
    destruct (strstr_inv _ _ _ Hfound) as (pre & -> & Hpre).
    apply has_prefix_inv in Hpre as [rest ->].
    destruct rest as [|c rest]; [done|].
    change (char_at (String.append "-libfuzzer" (String c rest)) 10)
      with (Z.of_N (Ascii.N_of_ascii c)).
    destruct (Z.eqb_spec (Z.of_N (Ascii.N_of_ascii c)) 45) as [Hc|]; [|done].
    intros [= <-]. exists pre.
    assert (c = Ascii.ascii_of_N 45) as ->.
    { apply (f_equal Z.to_N) in Hc. rewrite N2Z.id in Hc.
      apply (f_equal Ascii.ascii_of_N) in Hc.
      by rewrite Ascii.ascii_N_embedding in Hc. }
    done.
  - unfold LLVMFuzzerInitialize_name. by intros ->.
Qed.

Lemma X25_fuzzer_target_follows_suffix_witness :
  ∃ pre, "./vlc-demux-libfuzzer-mkv"%string
         = String.append pre (String.append "-libfuzzer-" "mkv").
Proof.
  refine (proj1 (proj2 (X25_fuzzer_target_follows_suffix None
                          "./vlc-demux-libfuzzer-mkv" "mkv")) _).
  reflexivity.
Defined.

(** ** Never more rectangles than fragments *)

Lemma scan_step_count maxw maxh n st m :
  count_inv n st → count_inv n (scan_step maxw maxh st m).
Proof.
  intros [Hused Hlen]. unfold scan_step.
  destruct (pp_img st !! m) as [[f|]|] eqn:Hm; [|done..].
  destruct (0 <=? find_best (region st) (r_img f) maxw maxh); [|done].
  pose proof (unassigned_insert_None _ _ _ Hm) as Hun.
  split; simpl; [lia|]. rewrite length_alter. lia.
Qed.

Lemma scan_count maxw maxh i_count n st :
  count_inv n st → count_inv n (scan maxw maxh i_count st).
Proof.
  intros Hst. unfold scan. apply (foldl_invariant (count_inv n)); [done|].
  intros st' m _. apply scan_step_count.
Qed.

Lemma grow_count fuel maxw maxh i_count n st st' :
  grow fuel maxw maxh i_count st = Some st' → count_inv n st → count_inv n st'.
Proof.
  revert st. induction fuel as [|fuel IH]; intros st Hg Hst; [done|].
  simpl in Hg. pose proof (scan_count maxw maxh i_count n st Hst) as Hscan.
  destruct (b_ok (scan maxw maxh i_count st)); [by eapply IH|].
  by simplify_eq.
Qed.

Lemma length_merge_best regs : (length (merge_best regs) ≤ length regs)%nat.
Proof.
  unfold merge_best. destruct (_ && _); [|done].
  destruct (regs !! Z.to_nat (i_best_j (find_merge regs))) as [rj|] eqn:Hj; [|done].
  rewrite length_delete.
  - rewrite length_alter. lia.
  - apply lookup_lt_is_Some. rewrite length_alter. by eapply lookup_lt_Some.
Qed.

Lemma build_loop_count fuel i_max_region maxw maxh n st :
  count_inv n st → (unassigned (pp_img st) < fuel)%nat →
  (∀ l, build_loop fuel i_max_region maxw maxh (Z.of_nat n) st = Done l →
        (length l ≤ n)%nat) ∧
  (Z.of_nat n ≤ i_max_region →
   ∃ l, build_loop fuel i_max_region maxw maxh (Z.of_nat n) st = Done l).
Proof.
  revert st. induction fuel as [|fuel IH]; intros st Hst Hfuel; [lia|].
  rewrite build_loop_S. destruct Hst as [Hused Hlen].
  destruct (Z.ltb_spec (i_used st) (Z.of_nat n)) as [Hmore|Hend].
  2:{ split; [|by eexists]. intros l [= <-]. lia. }
  destruct (first_unassigned (pp_img st)) as [[m f]|] eqn:Hfirst.
  2:{ apply first_unassigned_None in Hfirst. lia. }
  apply first_unassigned_Some in Hfirst.
  pose proof (unassigned_insert_None _ _ _ Hfirst) as Hun.
  cbv zeta.
  set (st1 := {| pp_img := <[m := None]> (pp_img st);
                 region := region st ++ [r_img f];
                 i_used := i_used st + 1; b_ok := b_ok st |}) in *.
  assert (count_inv n st1) as Hst1.
  { split; simpl; [lia|]. rewrite length_app. simpl. lia. }
  destruct (grow_total (S (length (pp_img st1))) maxw maxh (Z.of_nat n) st1)
    as (st2 & Hgrow & Hun2).
  { pose proof (unassigned_le_length (pp_img st1)). lia. }
  pose proof (grow_count _ _ _ _ _ _ _ Hgrow Hst1) as [Hused2 Hlen2].
  rewrite Hgrow.
  assert (unassigned (pp_img st2) < fuel)%nat as Hfuel2
    by (unfold st1 in Hun2; simpl in Hun2; lia).
  set (st3 := if i_max_region <? Z.of_nat (length (region st2))
              then {| pp_img := pp_img st2; region := merge_best (region st2);
                      i_used := i_used st2; b_ok := b_ok st2 |}
              else st2).
  assert (count_inv n st3 ∧ (unassigned (pp_img st3) < fuel)%nat) as [Hst3 Hfuel3].
  { unfold st3. destruct (i_max_region <? Z.of_nat (length (region st2))); [|done].
    split; [|done]. split; simpl; [done|].
    pose proof (length_merge_best (region st2)). lia. }
  destruct (IH st3 Hst3 Hfuel3) as [Hle Hdone].
  destruct (Z.ltb_spec (Z.of_nat (length (region st))) (i_max_region + 1)) as [|Hfull].
  - done.
  - split; [done|]. intros Hcap. lia.
Qed.

(** X26: the partitioner never returns more rectangles than there are
    fragments of positive size, and when the cap is at least that number it
    returns for every input, whatever the coordinates and the canvas. *)
Theorem X26_no_more_regions_than_fragments (calloc_ok : bool) (i_max_region : Z)
    (F : list ASS_Image) (W H : Z) :
  (∀ l, BuildRegions calloc_ok i_max_region F W H = Done l →
        (length l ≤ length (List.filter positive_size F))%nat) ∧
  (Z.of_nat (length (List.filter positive_size F)) ≤ i_max_region →
   ∃ l, BuildRegions calloc_ok i_max_region F W H = Done l).
Proof.
  unfold BuildRegions.
  destruct (_ <=? 0).
  { split; [|by eexists]. intros l [= <-]. simpl. lia. }
  destruct (negb calloc_ok).
  { split; [|by eexists]. intros l [= <-]. simpl. lia. }
  apply build_loop_count.
  - split; simpl; rewrite unassigned_fmap_Some; lia.
  - change (unassigned (Some <$> List.filter positive_size F)
            < S (length (List.filter positive_size F)))%nat.
    rewrite unassigned_fmap_Some. lia.
Qed.

Lemma X26_no_more_regions_than_fragments_witness :
  ∃ l, BuildRegions true 4
         [fragment_at 0 0 10 10; fragment_at (-2000000000) 0 2000000000 2000000000;
          fragment_at 5 5 0 3] 1000 1000 = Done l.
Proof.
  refine (proj2 (X26_no_more_regions_than_fragments true 4
                   [fragment_at 0 0 10 10;
                    fragment_at (-2000000000) 0 2000000000 2000000000;
                    fragment_at 5 5 0 3] 1000 1000) _).
  simpl. lia.
Defined.
